(** * keigo_app: the honorific classifier of [keigo_app.py]

    A shallow embedding of the classification core of the script: the
    pattern tables, [_hits], [classify_keigo], the table pass behind the
    button "敬語判定を実行" and the handler behind "追加パターンを適用";
    followed by the properties of these functions.

    Python [str] values are sequences of code points and are modelled as
    [list N].  The [re] module is an interface ([ReModule]); an instance
    that implements the pattern language of the built-in tables as a
    backtracking matcher is given in module [Sre].  Of pandas the model
    keeps what the pass depends on: column labels, row labels, the cells,
    and how [apply], [reset_index], [concat] and boolean masks treat
    them. *)

From Stdlib Require Import List Bool Arith NArith ZArith Lia.
From Stdlib Require Import Permutation Sorted.
From Stdlib Require String Ascii.
Import ListNotations.
Import String.StringSyntax.
Open Scope string_scope.

Set Implicit Arguments.

(** ** Text *)

Definition text := list N.

Definition text_eqb (a b : text) : bool :=
  if list_eq_dec N.eq_dec a b then true else false.

(** Source literals are written as UTF-8 byte strings; [u8] decodes them
    into code points. *)
Fixpoint utf8_decode (bs : list N) : text :=
  match bs with
  | [] => []
  | b0 :: r0 =>
    if (b0 <? 128)%N then b0 :: utf8_decode r0
    else match r0 with
    | [] => [b0]
    | b1 :: r1 =>
      if (b0 <? 224)%N
      then ((b0 - 192) * 64 + (b1 - 128))%N :: utf8_decode r1
      else match r1 with
      | [] => [b0; b1]
      | b2 :: r2 =>
        if (b0 <? 240)%N
        then ((b0 - 224) * 4096 + (b1 - 128) * 64 + (b2 - 128))%N
               :: utf8_decode r2
        else match r2 with
        | [] => [b0; b1; b2]
        | b3 :: r3 =>
          ((b0 - 240) * 262144 + (b1 - 128) * 4096
           + (b2 - 128) * 64 + (b3 - 128))%N :: utf8_decode r3
        end
      end
    end
  end.

Definition u8 (s : String.string) : text :=
  utf8_decode (map Ascii.N_of_ascii (String.list_ascii_of_string s)).

(** [Py_UNICODE_ISSPACE]: the characters [str.strip], [str.isspace] and the
    pattern escape [\s] treat as whitespace. *)
Definition py_isspace (c : N) : bool :=
  ((9 <=? c) && (c <=? 13) || (28 <=? c) && (c <=? 32)
   || (c =? 133) || (c =? 160) || (c =? 5760)
   || (8192 <=? c) && (c <=? 8202)
   || (c =? 8232) || (c =? 8233) || (c =? 8239) || (c =? 8287)
   || (c =? 12288))%N.

Fixpoint lstrip (s : text) : text :=
  match s with
  | c :: s' => if py_isspace c then lstrip s' else s
  | [] => []
  end.

Definition rstrip (s : text) : text := rev (lstrip (rev s)).

(** [s.strip()] *)
Definition strip (s : text) : text := rstrip (lstrip s).

(** Empty, or whitespace only. *)
Definition blank (s : text) : bool := forallb py_isspace s.

(** [sep.join(parts)] *)
Fixpoint join (sep : text) (parts : list text) : text :=
  match parts with
  | [] => []
  | [p] => p
  | p :: ps => p ++ sep ++ join sep ps
  end.

(** [s.splitlines()]: [pending] holds the current line, reversed. *)
Definition is_linebreak (c : N) : bool :=
  ((10 <=? c) && (c <=? 13) || (28 <=? c) && (c <=? 30)
   || (c =? 133) || (c =? 8232) || (c =? 8233))%N.

Fixpoint splitlines_from (pending : text) (s : text) : list text :=
  match s with
  | [] => match pending with [] => [] | _ => [rev pending] end
  | c :: s' =>
    if (c =? 13)%N then
      match s' with
      | 10%N :: s'' => rev pending :: splitlines_from [] s''
      | _ => rev pending :: splitlines_from [] s'
      end
    else if is_linebreak c then rev pending :: splitlines_from [] s'
    else splitlines_from (c :: pending) s'
  end.

Definition splitlines (s : text) : list text := splitlines_from [] s.

(** What follows a carriage return: a line feed right after it belongs to
    the same line break. *)
Definition after_cr (s : text) : text :=
  match s with
  | e :: s' => if (e =? 10)%N then s' else s
  | [] => s
  end.

(** ** The [re] module, as the script uses it *)

(** A match: its span and, per capture group, the span the group took part
    with ([None]: the group did not take part). *)
Record match_obj := MatchObj {
  m_start : nat;
  m_end : nat;
  m_marks : list (option (nat * nat))
}.

(** What a call of [re.compile] can raise: [re.error], which the handler
    of the extra patterns catches, or an exception of another class
    ([OverflowError] for a repetition count beyond the limit,
    [RecursionError] for nesting too deep), which it does not catch. *)
Inductive raised :=
| ReError
| OtherError.

(** [re.compile] (without flags) and the scan of a compiled pattern over a
    string.  [re_compile] gives the compiled pattern or what the call
    raises; [finditer p s] lists the successive matches of the leftmost,
    non-overlapping scan. *)
Class ReModule := {
  pattern : Type;
  re_compile : text -> raised + pattern;
  groups : pattern -> nat;
  finditer : pattern -> text -> list match_obj
}.

Definition getslice (s : text) (a b : nat) : text := firstn (b - a) (skipn a s).

(** [m.group(i)], with the empty string for a group that took no part. *)
Definition group_text (s : text) (m : match_obj) (i : nat) : text :=
  match i with
  | 0 => getslice s (m_start m) (m_end m)
  | S j => match nth j (m_marks m) None with
           | Some (a, b) => getslice s a b
           | None => []
           end
  end.

(** An element of the list [findall] returns: a string, or a tuple of
    strings when the pattern has more than one group. *)
Inductive found_item :=
| FStr (t : text)
| FTuple (ts : list text).

Definition found_of `{ReModule} (p : pattern) (s : text) (m : match_obj)
  : found_item :=
  match groups p with
  | 0 => FStr (group_text s m 0)
  | 1 => FStr (group_text s m 1)
  | n => FTuple (map (group_text s m) (seq 1 n))
  end.

(** [pat.findall(s)] *)
Definition findall `{ReModule} (p : pattern) (s : text) : list found_item :=
  map (found_of p s) (finditer p s).

(** ** [_hits] *)

(** [f if isinstance(f, str) else "".join(f)] *)
Definition hit_text (f : found_item) : text :=
  match f with
  | FStr t => t
  | FTuple ts => join [] ts
  end.

(** The hits one rule contributes. *)
Definition rule_hits `{ReModule} (s : text) (p : pattern) : list text :=
  map hit_text (findall p s).

Definition _hits `{ReModule} (patterns : list pattern) (s : text) : list text :=
  fold_left
    (fun hits pat =>
       let found := findall pat s in
       match found with
       | [] => hits
       | _ :: _ => hits ++ map hit_text found
       end)
    patterns [].

(** ** The rule tables and [classify_keigo] *)

(** The four module-level lists of compiled patterns. *)
Record store `{ReModule} := Store {
  RESPECT_RE : list pattern;
  HUMBLE_RE : list pattern;
  POLITE_RE : list pattern;
  BEAUTIFIER_RE : list pattern
}.

Arguments Store {_} _ _ _ _.

(** The values a cell or an argument can hold.  (Floats other than NaN are
    not part of the model.) *)
Inductive pyval :=
| PStr (s : text)
| PInt (z : Z)
| PBool (b : bool)
| PNaN
| PNone.

(** The dictionary [classify_keigo] returns, key by key. *)
Record verdict := Verdict {
  is_keigo : bool;
  respect_cnt : nat;
  humble_cnt : nat;
  polite_cnt : nat;
  beautifier_cnt : nat;
  respect_hits : text;
  humble_hits : text;
  polite_hits : text;
  beautifier_hits : text
}.

Definition no_data : verdict := Verdict false 0 0 0 0 [] [] [] [].

(** Truth value of a list. *)
Definition truthy {A} (l : list A) : bool :=
  match l with [] => false | _ :: _ => true end.

(** "、" *)
Definition SEP : text := [12289%N].

Definition classify_keigo `{ReModule} (st : store) (v : pyval) : verdict :=
  match v with
  | PStr t =>
    match strip t with
    | [] => no_data
    | _ :: _ =>
      let r_hits := _hits (RESPECT_RE st) t in
      let h_hits := _hits (HUMBLE_RE st) t in
      let p_hits := _hits (POLITE_RE st) t in
      let b_hits := _hits (BEAUTIFIER_RE st) t in
      {| is_keigo := existsb truthy [r_hits; h_hits; p_hits; b_hits];
         respect_cnt := length r_hits; humble_cnt := length h_hits;
         polite_cnt := length p_hits; beautifier_cnt := length b_hits;
         respect_hits := join SEP r_hits; humble_hits := join SEP h_hits;
         polite_hits := join SEP p_hits; beautifier_hits := join SEP b_hits |}
    end
  | _ => no_data
  end.

(** ** A matcher for the pattern language of the tables *)

Module Sre.

(** An element of a character set [[...]]. *)
Inductive set_item :=
| SChar (c : N)
| SRange (lo hi : N)
| SSpace.                       (* \s *)

Inductive regex :=
| Eps
| Chr (c : N)
| Dot                           (* any character but the newline *)
| Cls (neg : bool) (items : list set_item)
| Bol                           (* ^ *)
| Eol                           (* $ *)
| Seq (r1 r2 : regex)
| Alt (r1 r2 : regex)
| Grp (n : nat) (r : regex)     (* the n-th capturing group, from 1 *)
| Rep (lo : nat) (hi : option nat) (r : regex).   (* greedy repetition *)

Fixpoint ngroups (r : regex) : nat :=
  match r with
  | Seq r1 r2 | Alt r1 r2 => ngroups r1 + ngroups r2
  | Grp _ r1 => S (ngroups r1)
  | Rep _ _ r1 => ngroups r1
  | _ => 0
  end.

Definition in_item (c : N) (it : set_item) : bool :=
  match it with
  | SChar d => (c =? d)%N
  | SRange lo hi => ((lo <=? c) && (c <=? hi))%N
  | SSpace => py_isspace c
  end.

Definition in_set (neg : bool) (items : list set_item) (c : N) : bool :=
  xorb neg (existsb (in_item c) items).

Definition marks := list (option (nat * nat)).

Fixpoint set_mark (mk : marks) (n : nat) (v : nat * nat) : marks :=
  match mk, n with
  | [], _ => []
  | _ :: mk', 0 => Some v :: mk'
  | x :: mk', S n' => x :: set_mark mk' n' v
  end.

(** The rest of the match: position, remaining text and marks so far. *)
Definition kont := nat -> text -> marks -> option (nat * marks).

Definition one_char (ok : N -> bool) (i : nat) (s : text) (mk : marks)
  (k : kont) : option (nat * marks) :=
  match s with
  | c :: s' => if ok c then k (S i) s' mk else None
  | [] => None
  end.

Definition below (count : nat) (hi : option nat) : bool :=
  match hi with
  | Some h => count <? h
  | None => true
  end.

Definition same_pos (last : option nat) (i : nat) : bool :=
  match last with
  | Some j => j =? i
  | None => false
  end.

(** Where [$] matches: at the end, and before a newline that ends the
    text. *)
Definition at_end (s : text) : bool :=
  match s with
  | [] => true
  | [c] => (c =? 10)%N
  | _ => false
  end.

(** A greedy repetition of [body], between [lo] and [hi] times, followed
    by [k].  It first takes the [lo] iterations it needs, then as many more
    as it can, stopping after an iteration that consumed nothing ([last] is
    where the previous extra iteration began), and gives them back one at a
    time.  [fuel] bounds the number of iterations. *)
Section RepLoop.

Variable body : nat -> text -> marks -> kont -> option (nat * marks).
Variables (lo : nat) (hi : option nat) (k : kont).

Fixpoint rep_loop (fuel count : nat) (last : option nat)
  (i : nat) (s : text) (mk : marks) {struct fuel} : option (nat * marks) :=
  match fuel with
  | 0 => None
  | S fuel' =>
    if count <? lo then
      body i s mk (fun i' s' mk' => rep_loop fuel' (S count) last i' s' mk')
    else
      match
        (if below count hi && negb (same_pos last i) then
           body i s mk
             (fun i' s' mk' => rep_loop fuel' (S count) (Some i) i' s' mk')
         else None)
      with
      | Some x => Some x
      | None => k i s mk
      end
  end.

End RepLoop.

(** Backtracking match of [r] at position [i] ([s] is the text from [i]
    on), first success in priority order.  A repetition never needs more
    than [lo + length s + 1] iterations (see [exec_rep_fuel]). *)
Fixpoint exec (r : regex) (i : nat) (s : text) (mk : marks) (k : kont)
  {struct r} : option (nat * marks) :=
  match r with
  | Eps => k i s mk
  | Chr c => one_char (N.eqb c) i s mk k
  | Dot => one_char (fun c => negb (c =? 10)%N) i s mk k
  | Cls neg items => one_char (in_set neg items) i s mk k
  | Bol => if i =? 0 then k i s mk else None
  | Eol => if at_end s then k i s mk else None
  | Seq r1 r2 => exec r1 i s mk (fun i' s' mk' => exec r2 i' s' mk' k)
  | Alt r1 r2 =>
    match exec r1 i s mk k with
    | Some x => Some x
    | None => exec r2 i s mk k
    end
  | Grp n r1 =>
    exec r1 i s mk (fun i' s' mk' => k i' s' (set_mark mk' (n - 1) (i, i')))
  | Rep lo hi r1 =>
    rep_loop (exec r1) lo hi k (lo + length s + 2) 0 None i s mk
  end.

(** [sre_search]: the first position from [i] on where the pattern
    matches.  With [must_advance] an empty match at [i] itself is refused. *)
Fixpoint search (r : regex) (ng : nat) (must_advance : bool) (i : nat)
  (s : text) : option match_obj :=
  match
    exec r i s (repeat None ng)
      (fun i' _ mk' =>
         if must_advance && (i' =? i) then None else Some (i', mk'))
  with
  | Some (j, mk) => Some (MatchObj i j mk)
  | None =>
    match s with
    | [] => None
    | _ :: s' => search r ng false (S i) s'
    end
  end.

(** The scan behind [findall]: each search starts where the previous match
    ended, and must advance when that match was empty.  [fuel] bounds the
    number of matches; a text has at most [2 * length s + 1] of them (see
    [finditer_fuel]). *)
Fixpoint scan (fuel : nat) (r : regex) (ng : nat) (must_advance : bool)
  (i : nat) (s : text) : list match_obj :=
  match fuel with
  | 0 => []
  | S fuel' =>
    match search r ng must_advance i s with
    | None => []
    | Some m =>
      m :: scan fuel' r ng (m_end m =? m_start m) (m_end m)
             (skipn (m_end m - i) s)
    end
  end.

Definition finditer (r : regex) (s : text) : list match_obj :=
  scan (2 * length s + 2) r (ngroups r) false 0 s.

(** *** Pattern text to [regex]

    The parser covers literals, [.], [^], [$], sets with ranges and [\s],
    groups [(...)] and [(?:...)], alternation and the greedy quantifiers
    [*], [+], [?], [{m}], [{m,}], [{,n}], [{m,n}].  It raises [re.error]
    for malformed text of this language (unbalanced parentheses, an
    unterminated set, a reversed range or reversed bounds, a quantifier
    with nothing to repeat or after another quantifier, a trailing
    backslash) and [OverflowError] for a repetition count of [MAXREPEAT]
    or more, in the order the parser of [re] meets them.  Two limits of
    the instance: constructs outside the language (lazy and possessive
    quantifiers, look-around, back-references, the other letter escapes)
    are reported as [re.error] although [re.compile] may accept them, and
    the recursion limit that deep nesting can exceed is not modelled. *)

Definition is_digit (c : N) : bool := ((48 <=? c) && (c <=? 57))%N.

Definition is_ascii_alnum (c : N) : bool :=
  (is_digit c || (65 <=? c) && (c <=? 90) || (97 <=? c) && (c <=? 122))%N.

(** The text after the character [c], when [s] starts with it. *)
Definition eat (c : N) (s : text) : option text :=
  match s with
  | d :: r => if (d =? c)%N then Some r else None
  | [] => None
  end.

(** One member of a set: a character, an escaped character or [\s]. *)
Definition class_atom (s : text) : option (set_item * text) :=
  match s with
  | [] => None
  | c :: r =>
    if (c =? 92)%N then
      match r with
      | [] => None
      | e :: r' =>
        if (e =? 115)%N then Some (SSpace, r')
        else if is_ascii_alnum e then None
        else Some (SChar e, r')
      end
    else Some (SChar c, r)
  end.

(** The members of a set up to the closing bracket; a bracket in first
    place is a member, and so is a hyphen in last place. *)
Fixpoint class_items (fuel : nat) (s : text) (first : bool)
  (acc : list set_item) : option (list set_item * text) :=
  match fuel with
  | 0 => None
  | S fuel' =>
    match s with
    | [] => None
    | c :: r =>
      if (c =? 93)%N && negb first then Some (acc, r)
      else
        match class_atom s with
        | None => None
        | Some (it, r1) =>
          match eat 45 r1 with
          | Some r2 =>
            match eat 93 r2 with
            | Some _ => class_items fuel' r1 false (acc ++ [it])
            | None =>
              match it, class_atom r2 with
              | SChar lo, Some (SChar hi, r3) =>
                if (lo <=? hi)%N
                then class_items fuel' r3 false (acc ++ [SRange lo hi])
                else None
              | _, _ => None
              end
            end
          | None => class_items fuel' r1 false (acc ++ [it])
          end
        end
    end
  end.

(** What follows an opening bracket: the set, complemented after [^], and
    the text after the closing bracket. *)
Definition char_set (s : text) : option (regex * text) :=
  let neg := match eat 94 s with Some _ => true | None => false end in
  let s0 := match eat 94 s with Some s' => s' | None => s end in
  match class_items (S (length s0)) s0 true [] with
  | Some (items, r) => Some (Cls neg items, r)
  | None => None
  end.

Fixpoint digits (s : text) (acc : option N) : option N * text :=
  match s with
  | c :: r =>
    if is_digit c
    then digits r (Some (10 * match acc with Some a => a | None => 0 end
                         + (c - 48))%N)
    else (acc, s)
  | [] => (acc, s)
  end.

(** [MAXREPEAT]: a repetition count from this number on makes the parser
    raise [OverflowError]. *)
Definition MAXREPEAT : N := 4294967295.

(** What stands where a quantifier can: none, a quantifier with its
    bounds and the text after it, or a count that is too large. *)
Inductive quant :=
| NoQuant
| Quant (lo : nat) (hi : option nat) (rest : text)
| TooLarge.

Definition too_large (n : option N) : bool :=
  match n with
  | Some a => (MAXREPEAT <=? a)%N
  | None => false
  end.

Definition count_of (n : option N) : nat :=
  match n with
  | Some a => N.to_nat a
  | None => 0
  end.

(** What follows an opening brace: when it forms a quantifier, the lower
    count is checked against [MAXREPEAT], then the upper one. *)
Definition braces (s : text) : quant :=
  match eat 125 s with
  | Some _ => NoQuant
  | None =>
    let '(lo, r1) := digits s None in
    let '(hi, r2) :=
      match eat 44 r1 with
      | Some r => digits r None
      | None => (lo, r1)
      end in
    match eat 125 r2 with
    | Some r3 =>
      if too_large lo || too_large hi then TooLarge
      else Quant (count_of lo) (option_map N.to_nat hi) r3
    | None => NoQuant
    end
  end.

(** The quantifier that starts [s], if one does. *)
Definition quantifier (s : text) : quant :=
  match s with
  | [] => NoQuant
  | c :: r =>
    if (c =? 42)%N then Quant 0 None r
    else if (c =? 43)%N then Quant 1 None r
    else if (c =? 63)%N then Quant 0 (Some 1) r
    else if (c =? 123)%N then braces r
    else NoQuant
  end.

(** Whether the last item of a sequence can take a quantifier. *)
Inductive item_kind := Plain | Quantified | Anchor.

Fixpoint mkseq (items : list regex) : regex :=
  match items with
  | [] => Eps
  | [r] => r
  | r :: rs => Seq r (mkseq rs)
  end.

Definition bounds_ok (lo : nat) (hi : option nat) : bool :=
  match hi with
  | Some h => lo <=? h
  | None => true
  end.

(** [parse_alt] reads branches up to a closing parenthesis or the end of
    the text; [parse_items] reads one branch, [acc] holding its items in
    reverse and [kind] the kind of the latest; [g] counts the capturing
    groups opened so far.  The result is what was read, the text left and
    the group count, or what the parser raises. *)
Fixpoint parse_alt (fuel : nat) (s : text) (g : nat)
  : raised + regex * text * nat :=
  match fuel with
  | 0 => inl ReError
  | S fuel' =>
    match parse_items fuel' s g [] Anchor with
    | inl e => inl e
    | inr (r1, rest, g1) =>
      match eat 124 rest with
      | Some rest' =>
        match parse_alt fuel' rest' g1 with
        | inr (r2, rest2, g2) => inr (Alt r1 r2, rest2, g2)
        | inl e => inl e
        end
      | None => inr (r1, rest, g1)
      end
    end
  end
with parse_items (fuel : nat) (s : text) (g : nat) (acc : list regex)
  (kind : item_kind) : raised + regex * text * nat :=
  match fuel with
  | 0 => inl ReError
  | S fuel' =>
    match s with
    | [] => inr (mkseq (rev acc), s, g)
    | c :: r =>
      if (c =? 124)%N || (c =? 41)%N then inr (mkseq (rev acc), s, g)
      else
        match quantifier s with
        | TooLarge => inl OtherError
        | Quant lo hi r1 =>
          match kind, acc with
          | Plain, x :: acc' =>
            if bounds_ok lo hi
            then parse_items fuel' r1 g (Rep lo hi x :: acc') Quantified
            else inl ReError
          | _, _ => inl ReError
          end
        | NoQuant =>
          if (c =? 40)%N then
            match eat 63 r with
            | Some q =>
              match eat 58 q with
              | Some r1 =>
                match parse_alt fuel' r1 g with
                | inr (x, rest, g1) =>
                  match eat 41 rest with
                  | Some r2 => parse_items fuel' r2 g1 (x :: acc) Plain
                  | None => inl ReError
                  end
                | inl e => inl e
                end
              | None => inl ReError
              end
            | None =>
              match parse_alt fuel' r (S g) with
              | inr (x, rest, g1) =>
                match eat 41 rest with
                | Some r2 => parse_items fuel' r2 g1 (Grp (S g) x :: acc) Plain
                | None => inl ReError
                end
              | inl e => inl e
              end
            end
          else if (c =? 91)%N then
            match char_set r with
            | Some (x, r1) => parse_items fuel' r1 g (x :: acc) Plain
            | None => inl ReError
            end
          else if (c =? 92)%N then
            match r with
            | [] => inl ReError
            | e :: r1 =>
              if (e =? 115)%N
              then parse_items fuel' r1 g (Cls false [SSpace] :: acc) Plain
              else if is_ascii_alnum e then inl ReError
              else parse_items fuel' r1 g (Chr e :: acc) Plain
            end
          else if (c =? 46)%N then parse_items fuel' r g (Dot :: acc) Plain
          else if (c =? 94)%N then parse_items fuel' r g (Bol :: acc) Anchor
          else if (c =? 36)%N then parse_items fuel' r g (Eol :: acc) Anchor
          else parse_items fuel' r g (Chr c :: acc) Plain
        end
    end
  end.

(** The whole pattern; [parse_alt] never needs more fuel than it is given
    here (see [parse_fuel]).  Text left over starts with a closing
    parenthesis that nothing opened. *)
Definition parse (s : text) : raised + regex :=
  match parse_alt (2 * length s + 2) s 0 with
  | inr (r, [], _) => inr r
  | inr (_, _ :: _, _) => inl ReError
  | inl e => inl e
  end.

End Sre.

(** The instance of [re] over this matcher. *)
#[export] Instance sre : ReModule := {|
  pattern := Sre.regex;
  re_compile := Sre.parse;
  groups := Sre.ngroups;
  finditer := Sre.finditer
|}.

(** ** Positions and fuel, for the properties of the matcher *)

(** [(i', s')] is a position of the text that is [s] at [i]. *)
Definition later (i : nat) (s : text) (i' : nat) (s' : text) : Prop :=
  exists d, i' = i + d /\ s' = skipn d s /\ d <= length s.

Definition matcher := nat -> text -> Sre.marks -> Sre.kont -> option (nat * Sre.marks).

(** A success of the matcher is a success of its continuation at a later
    position. *)
Definition reaches (f : matcher) : Prop :=
  forall i s mk k x,
    f i s mk k = Some x ->
    exists i' s' mk', later i s i' s' /\ k i' s' mk' = Some x.

(** The matcher only looks at its continuation at later positions. *)
Definition local (f : matcher) : Prop :=
  forall i s mk k1 k2,
    (forall i' s' mk', later i s i' s' -> k1 i' s' mk' = k2 i' s' mk') ->
    f i s mk k1 = f i s mk k2.

(** The fuel a repetition needs from a given state. *)
Definition rep_need (lo count : nat) (last : option nat) (i : nat) (s : text)
  : nat :=
  if count <? lo then (lo - count) + length s + 2
  else if Sre.same_pos last i then 1
  else length s + 2.

(** The fuel the scan needs from a given state. *)
Definition scan_need (must : bool) (s : text) : nat :=
  2 * length s + (if must then 1 else 2).

(** ** The built-in tables *)

Definition RESPECT_WORDS : list text := map u8
  [ "なさる"; "いらっしゃる"; "おいでになる"; "おっしゃる";
    "ご覧になる"; "召し上がる"; "お越しになる"; "お帰りになる";
    "ご存じ(?:だ|です)"; "くださる"; "お休みになる" ].

Definition HUMBLE_WORDS : list text := map u8
  [ "いたす"; "存じ(?:ます|上げる|上げております)";
    "申し(?:ます|上げる|上げております)"; "拝見(?:します|いたします)";
    "伺(?:います|いました|わせて)"; "差し上げ(?:ます|ました)";
    "承知(?:しました|いたしました|しております)";
    "頂(?:きます|けます)"; "いただ(?:きます|けます|いております)";
    "参(?:り|ります)" ].

Definition TAIL : text :=
  u8 "[ー〜~ｗ笑]*[\s　]*[。．.!！?？、,：:；;…‥」』）\)\]】〉》]*".

Definition POLITE_PATTERNS : list text :=
  [ u8 "(?:です|ます|でした|でしょう|ません|でございます|ござい(?:ます|ません))(?:か|ね|よ)?"
      ++ TAIL;
    u8 "ください" ++ TAIL ].

Definition BEAUTIFIER_PATTERNS : list text := map u8
  [ "(?:お|ご)[一-龥ぁ-んァ-ン]{1,6}(?:いたします|します|ください|です)" ].

Definition CANDIDATE_TEXT_COLS : list text := map u8
  [ "セリフ"; "台詞"; "text"; "発話"; "発言"; "utterance"; "line" ].

Definition NOT_USED : text := u8 "（使わない）".
Definition UNSELECTED : text := u8 "（未選択）".

(** [[re.compile(p) for p in ps]]: the compiled patterns, or what the
    first [re.compile] that raises raises. *)
Fixpoint compile_list `{ReModule} (ps : list text) : raised + list pattern :=
  match ps with
  | [] => inr []
  | p :: ps' =>
    match re_compile p with
    | inl e => inl e
    | inr c =>
      match compile_list ps' with
      | inl e => inl e
      | inr cs => inr (c :: cs)
      end
    end
  end.

(** The four lists as the module builds them when it is loaded. *)
Definition startup `{ReModule} : option store :=
  match compile_list RESPECT_WORDS, compile_list HUMBLE_WORDS,
        compile_list POLITE_PATTERNS, compile_list BEAUTIFIER_PATTERNS with
  | inr r, inr h, inr p, inr b => Some (Store r h p b)
  | _, _, _, _ => None
  end.

(** ** [classify_keigo] with the calls of [findall] it makes

    The same two functions, returning next to their value the list of
    [pat.findall(s)] calls performed, in order. *)

Definition traced `{ReModule} (A : Type) : Type := (A * list (pattern * text))%type.

Definition _hits_traced `{ReModule} (patterns : list pattern) (s : text)
  : traced (list text) :=
  fold_left
    (fun (acc : traced (list text)) pat =>
       let found := findall pat s in
       (match found with
        | [] => fst acc
        | _ :: _ => fst acc ++ map hit_text found
        end, snd acc ++ [(pat, s)]))
    patterns ([], []).

Definition classify_keigo_traced `{ReModule} (st : store) (v : pyval)
  : traced verdict :=
  match v with
  | PStr t =>
    match strip t with
    | [] => (no_data, [])
    | _ :: _ =>
      let '(r_hits, c1) := _hits_traced (RESPECT_RE st) t in
      let '(h_hits, c2) := _hits_traced (HUMBLE_RE st) t in
      let '(p_hits, c3) := _hits_traced (POLITE_RE st) t in
      let '(b_hits, c4) := _hits_traced (BEAUTIFIER_RE st) t in
      ({| is_keigo := existsb truthy [r_hits; h_hits; p_hits; b_hits];
          respect_cnt := length r_hits; humble_cnt := length h_hits;
          polite_cnt := length p_hits; beautifier_cnt := length b_hits;
          respect_hits := join SEP r_hits; humble_hits := join SEP h_hits;
          polite_hits := join SEP p_hits; beautifier_hits := join SEP b_hits |},
       c1 ++ c2 ++ c3 ++ c4)
    end
  | _ => (no_data, [])
  end.

(** ** The handler of "追加パターンを適用" *)

Inductive category := Respect | Humble | Polite | Beautifier.

Definition rules `{ReModule} (c : category) (st : store) : list pattern :=
  match c with
  | Respect => RESPECT_RE st
  | Humble => HUMBLE_RE st
  | Polite => POLITE_RE st
  | Beautifier => BEAUTIFIER_RE st
  end.

(** [X_RE.extend(new)] on the list of category [c]. *)
Definition extend `{ReModule} (c : category) (new : list pattern) (st : store)
  : store :=
  match c with
  | Respect =>
    Store (RESPECT_RE st ++ new) (HUMBLE_RE st) (POLITE_RE st) (BEAUTIFIER_RE st)
  | Humble =>
    Store (RESPECT_RE st) (HUMBLE_RE st ++ new) (POLITE_RE st) (BEAUTIFIER_RE st)
  | Polite =>
    Store (RESPECT_RE st) (HUMBLE_RE st) (POLITE_RE st ++ new) (BEAUTIFIER_RE st)
  | Beautifier =>
    Store (RESPECT_RE st) (HUMBLE_RE st) (POLITE_RE st) (BEAUTIFIER_RE st ++ new)
  end.

(** [[l.strip() for l in s.splitlines() if l.strip()]] *)
Definition _lines (s : text) : list text :=
  map strip (filter (fun l => truthy (strip l)) (splitlines s)).

(** Statements that update the tables and may raise: the tables after
    the statement, and its value or what it raised. *)
Definition action `{ReModule} (A : Type) : Type := store -> store * (raised + A).

Definition bind `{ReModule} {A B} (m : action A) (f : A -> action B) : action B :=
  fun st =>
    match m st with
    | (st', inr a) => f a st'
    | (st', inl e) => (st', inl e)
    end.

Notation "x <- m ;; k" := (bind m (fun x => k))
  (at level 61, m at next level, right associativity).

(** Evaluating an expression that leaves the tables alone. *)
Definition eval `{ReModule} {A} (o : raised + A) : action A := fun st => (st, o).

Definition do_extend `{ReModule} (c : category) (new : list pattern) : action unit :=
  fun st => (extend c new st, inr tt).

(** The body of the [try]. *)
Definition try_body `{ReModule}
  (extra_respect extra_humble extra_polite extra_beauty : text) : action unit :=
  r <- eval (compile_list (_lines extra_respect)) ;;
  _ <- do_extend Respect r ;;
  h <- eval (compile_list (_lines extra_humble)) ;;
  _ <- do_extend Humble h ;;
  p <- eval (compile_list (_lines extra_polite)) ;;
  _ <- do_extend Polite p ;;
  b <- eval (compile_list (_lines extra_beauty)) ;;
  do_extend Beautifier b.

(** How the handler ends: with [st.success]; with [st.error] in the
    [except re.error]; or, for an exception that is not an [re.error], with
    neither message, the exception leaving the handler uncaught. *)
Inductive shown := Applied | RegexError | Uncaught.

Definition apply_extra `{ReModule} (st : store)
  (extra_respect extra_humble extra_polite extra_beauty : text)
  : store * shown :=
  match try_body extra_respect extra_humble extra_polite extra_beauty st with
  | (st', inr _) => (st', Applied)
  | (st', inl ReError) => (st', RegexError)
  | (st', inl OtherError) => (st', Uncaught)
  end.

(** The four text areas, by category. *)
Definition area (c : category) (er eh ep eb : text) : text :=
  match c with
  | Respect => er
  | Humble => eh
  | Polite => ep
  | Beautifier => eb
  end.

Definition cnt (c : category) (v : verdict) : nat :=
  match c with
  | Respect => respect_cnt v
  | Humble => humble_cnt v
  | Polite => polite_cnt v
  | Beautifier => beautifier_cnt v
  end.

(** ** Frames *)

(** A [DataFrame]: column labels, row labels and the rows, each row
    holding one cell per column.  The frames of the script have pairwise
    distinct column labels ([xl.parse] renames repeated headers) and
    pairwise distinct row labels. *)
Record frame := Frame {
  columns : list text;
  index : list nat;
  rows : list (list pyval)
}.

(** The frame [xl.parse] returns: rows labelled [0 .. n-1]. *)
Definition range_frame (cols : list text) (rs : list (list pyval)) : frame :=
  Frame cols (seq 0 (length rs)) rs.

Fixpoint position (name : text) (cols : list text) : option nat :=
  match cols with
  | [] => None
  | c :: cols' =>
    if text_eqb c name then Some 0
    else option_map S (position name cols')
  end.

(** [df[name]]: the cells of a column, [None] for [KeyError]. *)
Definition column (df : frame) (name : text) : option (list pyval) :=
  match position name (columns df) with
  | Some j => Some (map (fun r => nth j r PNaN) (rows df))
  | None => None
  end.

Fixpoint uint_text (u : Decimal.uint) : text :=
  match u with
  | Decimal.Nil => []
  | Decimal.D0 u' => 48%N :: uint_text u'
  | Decimal.D1 u' => 49%N :: uint_text u'
  | Decimal.D2 u' => 50%N :: uint_text u'
  | Decimal.D3 u' => 51%N :: uint_text u'
  | Decimal.D4 u' => 52%N :: uint_text u'
  | Decimal.D5 u' => 53%N :: uint_text u'
  | Decimal.D6 u' => 54%N :: uint_text u'
  | Decimal.D7 u' => 55%N :: uint_text u'
  | Decimal.D8 u' => 56%N :: uint_text u'
  | Decimal.D9 u' => 57%N :: uint_text u'
  end.

(** [str(v)], as [astype(str)] applies it to each cell. *)
Definition py_str (v : pyval) : text :=
  match v with
  | PStr s => s
  | PInt z =>
    match Z.to_int z with
    | Decimal.Pos u => uint_text u
    | Decimal.Neg u => 45%N :: uint_text u
    end
  | PBool true => u8 "True"
  | PBool false => u8 "False"
  | PNaN => u8 "nan"
  | PNone => u8 "None"
  end.

Fixpoint keep {A} (mask : list bool) (l : list A) : list A :=
  match mask, l with
  | true :: mask', x :: l' => x :: keep mask' l'
  | false :: mask', _ :: l' => keep mask' l'
  | _, _ => []
  end.

(** [df[mask]] for a boolean mask: the rows kept with their labels. *)
Definition select (df : frame) (mask : list bool) : frame :=
  Frame (columns df) (keep mask (index df)) (keep mask (rows df)).

(** [df.reset_index(drop=True)] *)
Definition reset_index (df : frame) : frame :=
  Frame (columns df) (seq 0 (length (rows df))) (rows df).

(** The row of [df] labelled [l]. *)
Fixpoint row_at (idx : list nat) (rs : list (list pyval)) (l : nat)
  : option (list pyval) :=
  match idx, rs with
  | i :: idx', r :: rs' => if i =? l then Some r else row_at idx' rs' l
  | _, _ => None
  end.

Definition or_nan (width : nat) (o : option (list pyval)) : list pyval :=
  match o with
  | Some r => r
  | None => repeat PNaN width
  end.

(** [pd.concat([a, b], axis=1)]: an outer join on the row labels.  The
    result has the columns of [a] then those of [b], over the union of the
    row labels (those of [a], then the labels only [b] has); a frame that
    lacks a label contributes NaN cells there.  Frames with the same
    labels are put side by side. *)
Definition concat_axis1 (a b : frame) : frame :=
  let labels :=
    index a ++ filter (fun l => negb (existsb (Nat.eqb l) (index a))) (index b) in
  Frame (columns a ++ columns b) labels
    (map (fun l =>
            or_nan (length (columns a)) (row_at (index a) (rows a) l)
            ++ or_nan (length (columns b)) (row_at (index b) (rows b) l))
         labels).

(** The keys of the dictionary of [classify_keigo], in order, and its
    values. *)
Definition RESULT_KEYS : list text := map u8
  [ "is_keigo"; "respect_cnt"; "humble_cnt"; "polite_cnt"; "beautifier_cnt";
    "respect_hits"; "humble_hits"; "polite_hits"; "beautifier_hits" ].

Definition IS_KEIGO : text := u8 "is_keigo".

Definition verdict_cells (v : verdict) : list pyval :=
  [ PBool (is_keigo v);
    PInt (Z.of_nat (respect_cnt v)); PInt (Z.of_nat (humble_cnt v));
    PInt (Z.of_nat (polite_cnt v)); PInt (Z.of_nat (beautifier_cnt v));
    PStr (respect_hits v); PStr (humble_hits v);
    PStr (polite_hits v); PStr (beautifier_hits v) ].

(** [series.apply(pd.Series)] on the series of dictionaries, which keeps
    the row labels [idx] of the series: one column per key.  On an empty
    series [apply] calls nothing and returns an empty series, still named
    [name] after the column it came from; there is no dictionary to take
    keys from, and [concat] gets that one empty column instead. *)
Definition expand (name : text) (idx : list nat) (vs : list verdict) : frame :=
  match vs with
  | [] => Frame [name] idx []
  | _ :: _ => Frame RESULT_KEYS idx (map verdict_cells vs)
  end.

(** A boolean key: the cells of a column of booleans.  [None] when a cell
    is not a boolean (NaN, where two frames did not line up): pandas
    refuses to mask with such a column and raises [ValueError]. *)
Fixpoint as_mask (vs : list pyval) : option (list bool) :=
  match vs with
  | [] => Some []
  | PBool b :: vs' => option_map (cons b) (as_mask vs')
  | _ :: _ => None
  end.

(** ** The pass behind "敬語判定を実行" *)

Inductive failure :=
| KeyError
| ValueError
| Stopped.       (* [st.error] followed by [st.stop()] *)

Definition outcome (A : Type) : Type := (failure + A)%type.

Definition and_then {A B} (m : outcome A) (f : A -> outcome B) : outcome B :=
  match m with
  | inl e => inl e
  | inr a => f a
  end.

Notation "x <-- m ;;; k" := (and_then m (fun x => k))
  (at level 61, m at next level, right associativity).

Definition or_raise {A} (e : failure) (o : option A) : outcome A :=
  match o with
  | Some a => inr a
  | None => inl e
  end.

(** The condition of line 122. *)
Definition filter_on (filter_col : text) (filter_val : option text) : bool :=
  negb (text_eqb filter_col NOT_USED)
  && match filter_val with
     | Some v => truthy v && negb (text_eqb v UNSELECTED)
     | None => false
     end.

(** [work_df[work_df[filter_col].astype(str) == filter_val]] *)
Definition restrict (df : frame) (filter_col filter_val : text) : outcome frame :=
  cells <-- or_raise KeyError (column df filter_col) ;;;
  inr (select df (map (fun v => text_eqb (py_str v) filter_val) cells)).

(** Lines 119 to 132: the pair [(out_all, out_keigo)]. *)
Definition classify_table `{ReModule} (st : store) (df : frame)
  (text_col filter_col : text) (filter_val : option text)
  : outcome (frame * frame) :=
  work_df <--
    (if filter_on filter_col filter_val
     then restrict df filter_col
            (match filter_val with Some v => v | None => [] end)
     else inr df) ;;;
  texts <-- or_raise Stopped (column work_df text_col) ;;;
  let results :=
    expand text_col (index work_df) (map (classify_keigo st) texts) in
  let out_all := concat_axis1 (reset_index work_df) results in
  key <-- or_raise KeyError (column out_all IS_KEIGO) ;;;
  mask <-- or_raise ValueError (as_mask key) ;;;
  inr (out_all, select out_all mask).

(** The other side of the comparison "filter, then classify": the table
    restricted to the rows whose [filter_col] cell, compared as text,
    equals [filter_val].  It is a table of its own, as the reader of the
    sheet would deliver it: rows labelled from 0. *)
Definition restricted_table (df : frame) (filter_col filter_val : text) : frame :=
  match position filter_col (columns df) with
  | Some jf =>
    range_frame (columns df)
      (filter (fun r => text_eqb (py_str (nth jf r PNaN)) filter_val) (rows df))
  | None => df
  end.

(** The values for which [classify_keigo] has nothing to classify: not a
    string, or a blank one. *)
Definition nothing_to_classify (v : pyval) : bool :=
  match v with
  | PStr s => blank s
  | _ => true
  end.

(** ** The choice of the text column (lines 98 to 107) *)

(** The first candidate name that is a column of the sheet. *)
Definition default_text_col (cols : list text) : option text :=
  find (fun cand => existsb (text_eqb cand) cols) CANDIDATE_TEXT_COLS.

(** The position the select box of the text column starts at:
    [list(df.columns).index(default_text_col)], or 0 without a default. *)
Definition default_index (cols : list text) : nat :=
  match default_text_col cols with
  | Some d =>
    match position d cols with
    | Some i => i
    | None => 0
    end
  | None => 0
  end.

(** ** The values offered for the filter (line 114) *)

(** The cells [dropna] drops. *)
Definition is_na (v : pyval) : bool :=
  match v with
  | PNaN | PNone => true
  | _ => false
  end.

(** [unique()]: the values in the order they first appear. *)
Fixpoint unique (l : list text) : list text :=
  match l with
  | [] => []
  | x :: l' => x :: filter (fun y => negb (text_eqb x y)) (unique l')
  end.

(** The order of Python strings: by code point, a prefix first. *)
Fixpoint text_leb (a b : text) : bool :=
  match a, b with
  | [], _ => true
  | _ :: _, [] => false
  | x :: a', y :: b' =>
    if (x <? y)%N then true
    else if (y <? x)%N then false
    else text_leb a' b'
  end.

Fixpoint insert_sorted (x : text) (l : list text) : list text :=
  match l with
  | [] => [x]
  | y :: l' => if text_leb x y then x :: l else y :: insert_sorted x l'
  end.

(** [sorted(l)] *)
Definition sorted (l : list text) : list text := fold_right insert_sorted [] l.

(** ["（未選択）"] followed by the sorted distinct texts of the cells of the
    column that are not missing; [None] for [KeyError]. *)
Definition filter_options (df : frame) (filter_col : text) : option (list text) :=
  match column df filter_col with
  | Some cells =>
    Some (UNSELECTED
            :: sorted (unique (map py_str (filter (fun v => negb (is_na v)) cells))))
  | None => None
  end.

(** [a <= b] in the order of Python strings. *)
Definition text_le (a b : text) : Prop := text_leb a b = true.

(** ** What a pattern can start with *)

(** Whether the pattern can match without consuming a character (an upper
    bound: [true] when in doubt). *)
Fixpoint nullable (r : Sre.regex) : bool :=
  match r with
  | Sre.Eps | Sre.Bol | Sre.Eol => true
  | Sre.Chr _ | Sre.Dot | Sre.Cls _ _ => false
  | Sre.Seq r1 r2 => nullable r1 && nullable r2
  | Sre.Alt r1 r2 => nullable r1 || nullable r2
  | Sre.Grp _ r1 => nullable r1
  | Sre.Rep lo _ r1 => (lo =? 0) || nullable r1
  end.

(** The characters a match that consumes something can begin with (an
    upper bound). *)
Fixpoint starts (r : Sre.regex) (c : N) : bool :=
  match r with
  | Sre.Eps | Sre.Bol | Sre.Eol => false
  | Sre.Chr d => (d =? c)%N
  | Sre.Dot => negb (c =? 10)%N
  | Sre.Cls neg items => Sre.in_set neg items c
  | Sre.Seq r1 r2 => starts r1 c || (nullable r1 && starts r2 c)
  | Sre.Alt r1 r2 => starts r1 c || starts r2 c
  | Sre.Grp _ r1 => starts r1 c
  | Sre.Rep _ _ r1 => starts r1 c
  end.

(** The characters the built-in rules begin with. *)
Definition BUILTIN_STARTS : text :=
  u8 "ないおご召く存申拝伺差承頂参でま".

(** The categories in the order the handler goes through them. *)
Definition rank (c : category) : nat :=
  match c with
  | Respect => 0
  | Humble => 1
  | Polite => 2
  | Beautifier => 3
  end.

(** The tables at start-up over the [sre] matcher (see [startup_builtin]). *)
Definition builtin : @store sre :=
  Eval vm_compute in
    match @startup sre with
    | Some st => st
    | None => Store [] [] [] []
    end.

(** * Properties *)

Lemma text_eqb_eq (a b : text) : text_eqb a b = true <-> a = b.
Proof.
  unfold text_eqb; destruct (list_eq_dec N.eq_dec a b); split; congruence.
Qed.

(** ** Blank text *)

Lemma lstrip_nil (s : text) : lstrip s = [] <-> blank s = true.
Proof.
  induction s as [|c s IH]; simpl; [tauto|].
  destruct (py_isspace c) eqn:Hc; simpl; [exact IH|].
  split; discriminate.
Qed.

Lemma lstrip_head (s : text) c t : lstrip s = c :: t -> py_isspace c = false.
Proof.
  induction s as [|d s IH]; simpl; [discriminate|].
  destruct (py_isspace d) eqn:Hd; [exact IH|].
  intros E; injection E as -> _; exact Hd.
Qed.

Lemma blank_rev (s : text) : blank (rev s) = blank s.
Proof.
  unfold blank. induction s as [|c s IH]; simpl; [reflexivity|].
  rewrite forallb_app, IH; simpl. rewrite andb_true_r. apply andb_comm.
Qed.

Lemma strip_nil (s : text) : strip s = [] <-> blank s = true.
Proof.
  unfold strip, rstrip. split.
  - intros E. apply (f_equal (@rev N)) in E; rewrite rev_involutive in E.
    simpl in E. apply lstrip_nil in E. rewrite blank_rev in E.
    destruct (lstrip s) as [|c t] eqn:L; [now apply lstrip_nil|].
    apply lstrip_head in L. simpl in E. rewrite L in E. discriminate.
  - intros B. apply lstrip_nil in B. rewrite B. reflexivity.
Qed.

(** ** [_hits], rule by rule *)

Lemma hits_fold `{ReModule} (ps : list pattern) (s : text) (acc : list text) :
  fold_left
    (fun hits pat =>
       match findall pat s with
       | [] => hits
       | _ :: _ => hits ++ map hit_text (findall pat s)
       end) ps acc
  = acc ++ flat_map (rule_hits s) ps.
Proof.
  revert acc; induction ps as [|p ps IH]; intros acc; simpl.
  - now rewrite app_nil_r.
  - rewrite IH. unfold rule_hits at 2.
    destruct (findall p s) eqn:F; simpl.
    + reflexivity.
    + now rewrite <- app_assoc.
Qed.

Lemma hits_flat_map `{ReModule} (ps : list pattern) (s : text) :
  _hits ps s = flat_map (rule_hits s) ps.
Proof. unfold _hits. now rewrite hits_fold. Qed.

Lemma hits_app `{ReModule} (ps qs : list pattern) (s : text) :
  _hits (ps ++ qs) s = _hits ps s ++ _hits qs s.
Proof. rewrite !hits_flat_map. apply flat_map_app. Qed.

Lemma hits_around `{ReModule} (ps qs : list pattern) (p : pattern) (s : text) :
  _hits (ps ++ p :: qs) s = _hits ps s ++ rule_hits s p ++ _hits qs s.
Proof.
  rewrite hits_app. f_equal. rewrite !hits_flat_map. reflexivity.
Qed.

Lemma join_empty (ts : list text) : join [] ts = concat ts.
Proof.
  induction ts as [|t ts IH]; [reflexivity|].
  destruct ts as [|u ts]; simpl in *.
  - now rewrite app_nil_r.
  - now rewrite IH.
Qed.

Lemma truthy_length {A} (l : list A) : truthy l = (0 <? length l).
Proof. destruct l; reflexivity. Qed.

(** ** The verdict *)

(** C1. For every rule store and every input, [is_keigo] is the
    disjunction of "the count is positive" over the four categories. *)
Theorem is_keigo_iff_some_count `{ReModule} (st : store) (v : pyval) :
  let r := classify_keigo st v in
  is_keigo r
  = (0 <? respect_cnt r) || (0 <? humble_cnt r)
    || (0 <? polite_cnt r) || (0 <? beautifier_cnt r).
Proof.
  unfold classify_keigo.
  destruct v as [t| | | |]; try reflexivity.
  destruct (strip t); [reflexivity|].
  cbn [is_keigo respect_cnt humble_cnt polite_cnt beautifier_cnt existsb].
  rewrite !truthy_length, orb_false_r, !orb_assoc. reflexivity.
Qed.

(** C2. An input that is not a string, or is an empty or whitespace-only
    string, is classified as the no-data verdict: not keigo, the four
    counts zero, the four hit strings empty.  ([classify_keigo] is a total
    function: no input makes it fail.) *)
Theorem classify_no_data `{ReModule} (st : store) (v : pyval) :
  nothing_to_classify v = true ->
  classify_keigo st v = Verdict false 0 0 0 0 [] [] [] [].
Proof.
  destruct v as [t| | | |]; simpl; try reflexivity.
  intros B. apply strip_nil in B. now rewrite B.
Qed.

Lemma classify_no_data_witness :
  nothing_to_classify (PStr (u8 " 　")) = true
  /\ classify_keigo builtin (PStr (u8 " 　"))
     = Verdict false 0 0 0 0 [] [] [] [].
Proof.
  split; [reflexivity|].
  apply (@classify_no_data sre builtin (PStr (u8 " 　"))).
  reflexivity.
Defined.

(** The same for a cell that holds no string. *)
Example classify_nan : classify_keigo builtin PNaN = no_data.
Proof. reflexivity. Qed.

(** ** Hits and capture groups *)

(** C6. A rule with two or more capture groups contributes, for each of
    its occurrences in the text, the concatenation of the texts of all its
    groups (and not the text of the whole occurrence). *)
Theorem hits_of_many_groups `{ReModule}
  (before after : list pattern) (p : pattern) (s : text) :
  2 <= groups p ->
  _hits (before ++ p :: after) s
  = _hits before s
    ++ map (fun m => concat (map (group_text s m) (seq 1 (groups p))))
         (finditer p s)
    ++ _hits after s.
Proof.
  intros G. rewrite hits_around. do 2 f_equal.
  unfold rule_hits, findall. rewrite map_map. apply map_ext; intros m.
  unfold found_of. destruct (groups p) as [|[|n]]; try lia.
  cbn [hit_text]. apply join_empty.
Qed.

(** C10. A rule with exactly one capture group contributes, for each of
    its occurrences, the text of that group alone; a rule without groups
    contributes the text of the whole occurrence. *)
Theorem hits_of_one_group `{ReModule}
  (before after : list pattern) (p : pattern) (s : text) :
  (groups p = 1 ->
   _hits (before ++ p :: after) s
   = _hits before s
     ++ map (fun m => group_text s m 1) (finditer p s)
     ++ _hits after s)
  /\ (groups p = 0 ->
      _hits (before ++ p :: after) s
      = _hits before s
        ++ map (fun m => getslice s (m_start m) (m_end m)) (finditer p s)
        ++ _hits after s).
Proof.
  split; intros G; rewrite hits_around; do 2 f_equal;
    unfold rule_hits, findall; rewrite map_map; apply map_ext; intros m;
    unfold found_of; rewrite G; reflexivity.
Qed.

Lemma hits_of_many_groups_witness :
  exists p : Sre.regex,
    re_compile (u8 "(ご)ざい(ます)") = inr p
    /\ 2 <= groups p
    /\ _hits [p] (u8 "ありがとうございます。") = [u8 "ごます"].
Proof.
  eexists; split; [vm_compute; reflexivity|].
  split; [vm_compute; lia|].
  refine (eq_trans (@hits_of_many_groups sre [] [] _ _ _) _);
    [vm_compute; lia | vm_compute; reflexivity].
Defined.

Lemma hits_of_one_group_witness :
  exists p q : Sre.regex,
    re_compile (u8 "ござい(ます)") = inr p
    /\ re_compile (u8 "ございます") = inr q
    /\ groups p = 1 /\ groups q = 0
    /\ _hits [p] (u8 "ありがとうございます。") = [u8 "ます"]
    /\ _hits [q] (u8 "ありがとうございます。") = [u8 "ございます"].
Proof.
  do 2 eexists.
  split; [vm_compute; reflexivity|].
  split; [vm_compute; reflexivity|].
  split; [reflexivity|]. split; [reflexivity|].
  split.
  - refine (eq_trans (proj1 (@hits_of_one_group sre [] [] _ _) _) _);
      [reflexivity | vm_compute; reflexivity].
  - refine (eq_trans (proj2 (@hits_of_one_group sre [] [] _ _) _) _);
      [reflexivity | vm_compute; reflexivity].
Defined.

(** ** Extending the tables *)

Lemma rules_extend_same `{ReModule} (c : category) new (st : store) :
  rules c (extend c new st) = rules c st ++ new.
Proof. destruct c; reflexivity. Qed.

Lemma rules_extend_other `{ReModule} (c d : category) new (st : store) :
  c <> d -> rules c (extend d new st) = rules c st.
Proof. destruct c, d; congruence || reflexivity. Qed.

Lemma cnt_classify `{ReModule} (c : category) (st : store) (t : text) :
  strip t <> [] ->
  cnt c (classify_keigo st (PStr t)) = length (_hits (rules c st) t).
Proof.
  intros S. unfold classify_keigo.
  destruct (strip t); [congruence|]. destruct c; reflexivity.
Qed.

(** Longer lists of rules give at least as many hits, category by
    category. *)
Lemma cnt_grows `{ReModule} (c : category) (st st' : store) (v : pyval) new :
  rules c st' = rules c st ++ new ->
  cnt c (classify_keigo st v) <= cnt c (classify_keigo st' v).
Proof.
  intros E. destruct v as [t| | | |]; try (destruct c; simpl; lia).
  destruct (strip t) eqn:S.
  - unfold classify_keigo; rewrite S. lia.
  - rewrite !cnt_classify by congruence.
    rewrite E, hits_app, length_app. lia.
Qed.

(** C4. Appending one compiled pattern to the list of a category never
    lowers the count of that category, whatever the input. *)
Theorem count_monotone `{ReModule}
  (st : store) (c : category) (p : pattern) (v : pyval) :
  cnt c (classify_keigo st v) <= cnt c (classify_keigo (extend c [p] st) v).
Proof. apply cnt_grows with (new := [p]). apply rules_extend_same. Qed.

Lemma compile_list_fails `{ReModule} (ls : list text) (line : text) e :
  In line ls -> re_compile line = inl e -> exists e', compile_list ls = inl e'.
Proof.
  induction ls as [|l ls IH]; simpl; [tauto|].
  intros [->|I] E.
  - rewrite E. now exists e.
  - destruct (re_compile l) as [e1|p]; [now exists e1|].
    destruct (IH I E) as [e' ->]. now exists e'.
Qed.

Ltac run_handler :=
  unfold apply_extra, try_body, bind, eval, do_extend;
  repeat match goal with
         | |- context [compile_list ?ls] =>
           let E := fresh "E" in destruct (compile_list ls) as [[|]|] eqn:E
         end.

(** When a line of the text area of category [c] does not compile, whatever
    it raises, the handler does not show the success message and the list
    of [c] is what it was before the click. *)
Lemma bad_pattern_leaves_rules `{ReModule} (st : store)
  (extra_respect extra_humble extra_polite extra_beauty : text)
  (c : category) (line : text) (e : raised) :
  In line (_lines (area c extra_respect extra_humble extra_polite extra_beauty)) ->
  re_compile line = inl e ->
  snd (apply_extra st extra_respect extra_humble extra_polite extra_beauty)
  <> Applied
  /\ rules c
       (fst (apply_extra st extra_respect extra_humble extra_polite extra_beauty))
     = rules c st.
Proof.
  intros I E. destruct (compile_list_fails _ _ I E) as [e' F].
  destruct c; unfold area in F; run_handler; simpl;
    try congruence; split; (reflexivity || discriminate).
Qed.

Lemma bad_pattern_leaves_rules_witness :
  In (u8 "(ます") (_lines (area Polite (u8 "") (u8 "") (u8 " (ます ") (u8 "")))
  /\ re_compile (u8 "(ます") = inl ReError
  /\ snd (apply_extra builtin (u8 "") (u8 "") (u8 " (ます ") (u8 "")) <> Applied
  /\ rules Polite (fst (apply_extra builtin (u8 "") (u8 "") (u8 " (ます ") (u8 "")))
     = rules Polite builtin.
Proof.
  assert (I : In (u8 "(ます")
                (_lines (area Polite (u8 "") (u8 "") (u8 " (ます ") (u8 ""))))
    by (left; reflexivity).
  assert (E : re_compile (u8 "(ます") = inl ReError) by reflexivity.
  split; [exact I|]. split; [exact E|].
  exact (@bad_pattern_leaves_rules sre builtin (u8 "") (u8 "") (u8 " (ます ")
           (u8 "") Polite (u8 "(ます") ReError I E).
Defined.

(** C5, where the code departs from it: the handler catches [re.error]
    only.  The pattern text "a{4294967296}" cannot be compiled, but what
    [re.compile] raises for it is [OverflowError]: the exception leaves the
    handler, and the error message for an invalid pattern is not shown,
    not even when a later text area holds a line that raises [re.error].
    (The lists are left as they were.) *)
Theorem overflow_escapes_handler :
  re_compile (u8 "a{4294967296}") = inl OtherError
  /\ re_compile (u8 "(") = inl ReError
  /\ apply_extra builtin (u8 "a{4294967296}") [] [] [] = (builtin, Uncaught)
  /\ apply_extra builtin (u8 "a{4294967296}") (u8 "(") [] []
     = (builtin, Uncaught)
  /\ apply_extra builtin [] (u8 "(") [] [] = (builtin, RegexError).
Proof. repeat split. Qed.

(** Whatever the handler shows, each list afterwards is the list before
    followed by the patterns appended. *)
Lemma apply_extra_appends `{ReModule} (st : store) (er eh ep eb : text)
  (c : category) :
  exists new, rules c (fst (apply_extra st er eh ep eb)) = rules c st ++ new.
Proof.
  destruct c; run_handler; simpl;
    solve [ eexists; reflexivity | exists []; now rewrite app_nil_r ].
Qed.

(** The click is not a transaction: the lists of the categories before
    the one with the bad line have already grown. *)
Example apply_extra_partial :
  exists p : Sre.regex,
    re_compile (u8 "であります") = inr p
    /\ apply_extra builtin (u8 "であります") (u8 "(") (u8 "") (u8 "")
       = (extend Respect [p] builtin, RegexError).
Proof. eexists; split; reflexivity. Qed.

(** On success the list of each category has grown by the compiled lines of
    its text area, in order. *)
Lemma apply_extra_applied `{ReModule} (st st' : store) (er eh ep eb : text)
  (c : category) :
  apply_extra st er eh ep eb = (st', Applied) ->
  exists new, compile_list (_lines (area c er eh ep eb)) = inr new
              /\ rules c st' = rules c st ++ new.
Proof.
  destruct c; cbn [area]; run_handler; simpl; intros A; inversion A; subst;
    eexists; split; try reflexivity; reflexivity.
Qed.

(** One compiling line in the text area of [c], the other areas empty:
    the click appends that pattern to the list of [c]. *)
Lemma apply_extra_one `{ReModule} (st : store) (c : category)
  (t line : text) (p : pattern) :
  _lines t = [line] ->
  re_compile line = inr p ->
  apply_extra st
    (match c with Respect => t | _ => [] end)
    (match c with Humble => t | _ => [] end)
    (match c with Polite => t | _ => [] end)
    (match c with Beautifier => t | _ => [] end)
  = (extend c [p] st, Applied).
Proof.
  intros L E. destruct st as [r h pl b].
  destruct c; unfold apply_extra, try_body, bind, eval, do_extend, extend;
    cbn [RESPECT_RE HUMBLE_RE POLITE_RE BEAUTIFIER_RE];
    rewrite L; change (_lines []) with (@nil text);
    cbn [compile_list]; rewrite E; now rewrite ?app_nil_r.
Qed.

(** A pattern the tables lack: "そうであります" has one polite hit (its
    "ます") before "であります" is added, and two after. *)
Example add_dearimasu :
  exists p : Sre.regex,
    apply_extra builtin [] [] (u8 "であります") []
    = (extend Polite [p] builtin, Applied)
    /\ polite_cnt (classify_keigo builtin (PStr (u8 "そうであります"))) = 1
    /\ polite_cnt
         (classify_keigo (extend Polite [p] builtin) (PStr (u8 "そうであります")))
       = 2.
Proof.
  eexists. split; [|split].
  - apply (@apply_extra_one sre builtin Polite (u8 "であります") (u8 "であります"));
      reflexivity.
  - vm_compute. reflexivity.
  - vm_compute. reflexivity.
Qed.

(** After a click the counts are at least what they were. *)
Lemma apply_extra_monotone `{ReModule} (st : store) (er eh ep eb : text)
  (c : category) (v : pyval) :
  cnt c (classify_keigo st v)
  <= cnt c (classify_keigo (fst (apply_extra st er eh ep eb)) v).
Proof.
  destruct (apply_extra_appends st er eh ep eb c) as [new E].
  now apply cnt_grows with (new := new).
Qed.

(** ** Blank text and the calls of [findall] *)

Lemma hits_traced_fold `{ReModule} (ps : list pattern) (s : text)
  (acc : traced (list text)) :
  fold_left
    (fun (acc : traced (list text)) pat =>
       (match findall pat s with
        | [] => fst acc
        | _ :: _ => fst acc ++ map hit_text (findall pat s)
        end, snd acc ++ [(pat, s)])) ps acc
  = (fst acc ++ _hits ps s, snd acc ++ map (fun p => (p, s)) ps).
Proof.
  revert acc; induction ps as [|p ps IH]; intros [hits calls].
  - simpl. now rewrite !app_nil_r.
  - cbn [fold_left]. rewrite IH. cbn [fst snd map].
    change (p :: ps) with ([p] ++ ps). rewrite hits_app.
    rewrite <- !app_assoc. f_equal.
    unfold _hits at 2; simpl.
    destruct (findall p s); simpl; [reflexivity|].
    now rewrite <- app_assoc.
Qed.

(** [_hits] calls [findall] once per rule, in order, and the instrumented
    function computes the same hits. *)
Lemma hits_traced_spec `{ReModule} (ps : list pattern) (s : text) :
  _hits_traced ps s = (_hits ps s, map (fun p => (p, s)) ps).
Proof. unfold _hits_traced. now rewrite hits_traced_fold. Qed.

Lemma classify_traced_value `{ReModule} (st : store) (v : pyval) :
  fst (classify_keigo_traced st v) = classify_keigo st v.
Proof.
  destruct v as [t| | | |]; try reflexivity.
  unfold classify_keigo_traced, classify_keigo.
  destruct (strip t); [reflexivity|].
  rewrite !hits_traced_spec. reflexivity.
Qed.

(** A text with content is scanned by every rule of the four lists. *)
Lemma classify_traced_calls `{ReModule} (st : store) (t : text) :
  strip t <> [] ->
  snd (classify_keigo_traced st (PStr t))
  = map (fun p => (p, t))
      (RESPECT_RE st ++ HUMBLE_RE st ++ POLITE_RE st ++ BEAUTIFIER_RE st).
Proof.
  intros S. unfold classify_keigo_traced.
  destruct (strip t); [congruence|].
  rewrite !hits_traced_spec. cbn [snd]. now rewrite !map_app.
Qed.

(** C8, as stated, fails for [_hits]: the function has no guard of its
    own, and a rule that matches whitespace has a hit in a text made of one
    space. *)
Lemma hits_on_blank_text :
  ~ (forall (ps : list Sre.regex) (s : text),
        blank s = true -> _hits ps s = []).
Proof.
  intros A.
  specialize (A [Sre.Cls false [Sre.SSpace]] (u8 " ") eq_refl).
  vm_compute in A. discriminate A.
Qed.

(** C8, amended. [classify_keigo] returns the no-data verdict for an empty
    or whitespace-only text before any rule is tried: whatever the four
    lists hold, no call of [findall] is made. *)
Theorem blank_text_short_circuit `{ReModule} (st : store) (s : text) :
  blank s = true ->
  classify_keigo_traced st (PStr s) = (no_data, []).
Proof.
  intros B. apply strip_nil in B.
  unfold classify_keigo_traced. now rewrite B.
Qed.

Lemma blank_text_short_circuit_witness :
  blank (u8 " 　 ") = true
  /\ classify_keigo_traced
       (@extend sre Polite [Sre.Cls false [Sre.SSpace]] builtin) (PStr (u8 " 　 "))
     = (no_data, []).
Proof.
  split; [reflexivity|].
  apply (@blank_text_short_circuit sre
           (@extend sre Polite [Sre.Cls false [Sre.SSpace]] builtin) (u8 " 　 ")).
  reflexivity.
Defined.

(** ** The built-in tables *)

(** Every built-in pattern compiles: the tables at start-up are [builtin]. *)
Lemma startup_builtin : @startup sre = Some builtin.
Proof. reflexivity. Qed.

Lemma builtin_sizes :
  length (RESPECT_RE builtin) = 11 /\ length (HUMBLE_RE builtin) = 10
  /\ length (POLITE_RE builtin) = 2 /\ length (BEAUTIFIER_RE builtin) = 1.
Proof. repeat split. Qed.

(** C9. With the built-in tables, "これはペンです。" has one polite hit,
    "です。", made by the first polite pattern, and no hit in the other
    categories; it is keigo. *)
Theorem pen_desu :
  classify_keigo builtin (PStr (u8 "これはペンです。"))
  = {| is_keigo := true;
       respect_cnt := 0; humble_cnt := 0; polite_cnt := 1; beautifier_cnt := 0;
       respect_hits := []; humble_hits := [];
       polite_hits := u8 "です。"; beautifier_hits := [] |}
  /\ map (fun p : Sre.regex => length (findall p (u8 "これはペンです。")))
       (POLITE_RE builtin) = [1; 0].
Proof. split; vm_compute; reflexivity. Qed.

(** ** The table pass *)

Lemma filter_off (fv : option text) : filter_on NOT_USED fv = false.
Proof. reflexivity. Qed.

Lemma position_app (name : text) (cols more : list text) :
  position name cols = None ->
  position name (cols ++ more)
  = option_map (Nat.add (length cols)) (position name more).
Proof.
  induction cols as [|c cols IH]; simpl; intros P.
  - now destruct (position name more).
  - destruct (text_eqb c name); [discriminate|].
    destruct (position name cols); [discriminate|].
    rewrite IH by reflexivity. now destruct (position name more).
Qed.

Lemma row_at_fresh idx rs i (r : list pyval) l :
  i <> l -> row_at (i :: idx) (r :: rs) l = row_at idx rs l.
Proof. intros D; simpl. apply Nat.eqb_neq in D. now rewrite D. Qed.

(** Two frames over the same distinct labels are joined row by row. *)
Lemma concat_rows_aligned (idx : list nat) (rs : list (list pyval))
  (f : list pyval -> list pyval) (w1 w2 : nat) :
  NoDup idx -> length idx = length rs ->
  map (fun l => or_nan w1 (row_at idx rs l)
                ++ or_nan w2 (row_at idx (map f rs) l)) idx
  = map (fun r => r ++ f r) rs.
Proof.
  intros ND; revert rs; induction ND as [|i idx NI ND IH];
    intros [|r rs] L; try discriminate; [reflexivity|].
  cbn [map]. f_equal.
  - simpl. now rewrite Nat.eqb_refl.
  - rewrite <- IH by (simpl in L; lia).
    apply map_ext_in; intros l I.
    assert (i <> l) by (intros ->; contradiction).
    now rewrite !row_at_fresh.
Qed.

Lemma filter_none {A} (f : A -> bool) (l : list A) :
  (forall x, In x l -> f x = false) -> filter f l = [].
Proof.
  induction l as [|x l IH]; intros G; [reflexivity|].
  simpl. rewrite G by now left. apply IH. intros y I; apply G; now right.
Qed.

Lemma no_new_labels (idx : list nat) :
  filter (fun l => negb (existsb (Nat.eqb l) idx)) idx = [].
Proof.
  apply filter_none. intros l I. apply negb_false_iff, existsb_exists.
  exists l; split; [exact I | apply Nat.eqb_refl].
Qed.

Lemma as_mask_bools {A} (b : A -> bool) (l : list A) :
  as_mask (map (fun x => PBool (b x)) l) = Some (map b l).
Proof. induction l as [|x l IH]; simpl; [reflexivity | now rewrite IH]. Qed.

Lemma keep_map_filter {A B} (b : A -> bool) (g : A -> B) (l : list A) :
  keep (map b l) (map g l) = map g (filter b l).
Proof.
  induction l as [|x l IH]; simpl; [reflexivity|].
  destruct (b x); simpl; now rewrite IH.
Qed.

Lemma nth_past (r more : list pyval) n :
  nth (length r + n) (r ++ more) PNaN = nth n more PNaN.
Proof. rewrite app_nth2 by lia. f_equal; lia. Qed.

(** Without a filter, on a table that has rows: [out_all] is the table
    with the nine classification cells appended to each row, in the order
    of the table, and [out_keigo] keeps the rows classified as keigo, in
    that order. *)
Theorem classify_table_unfiltered `{ReModule} (st : store)
  (cols : list text) (rs : list (list pyval)) (text_col : text) (j : nat)
  (fv : option text) :
  rs <> [] ->
  position text_col cols = Some j ->
  position IS_KEIGO cols = None ->
  Forall (fun r => length r = length cols) rs ->
  let verdict_of := fun r => classify_keigo st (nth j r PNaN) in
  let classified := fun r => r ++ verdict_cells (verdict_of r) in
  classify_table st (range_frame cols rs) text_col NOT_USED fv
  = inr (Frame (cols ++ RESULT_KEYS) (seq 0 (length rs)) (map classified rs),
         Frame (cols ++ RESULT_KEYS)
           (keep (map (fun r => is_keigo (verdict_of r)) rs) (seq 0 (length rs)))
           (map classified (filter (fun r => is_keigo (verdict_of r)) rs))).
Proof.
  intros NE P K W verdict_of classified.
  unfold classify_table, range_frame. rewrite filter_off.
  cbn [and_then]. unfold column at 1. cbn [columns rows index].
  rewrite P. cbn [or_raise and_then].
  rewrite map_map. fold verdict_of.
  set (vs := map (fun r => verdict_of r) rs).
  assert (X : expand text_col (seq 0 (length rs)) vs
              = Frame RESULT_KEYS (seq 0 (length rs)) (map verdict_cells vs)).
  { subst vs. destruct rs; [congruence | reflexivity]. }
  rewrite X. clear X. subst vs. rewrite map_map.
  unfold concat_axis1, reset_index.
  cbn [columns rows index]. rewrite no_new_labels, app_nil_r.
  rewrite (@concat_rows_aligned (seq 0 (length rs)) rs
             (fun r => verdict_cells (verdict_of r)))
    by (try apply seq_NoDup; now rewrite length_seq).
  fold classified.
  unfold column. cbn [columns rows].
  rewrite position_app by exact K.
  change (position IS_KEIGO RESULT_KEYS) with (Some 0). cbn [option_map].
  cbn [or_raise and_then]. rewrite map_map.
  assert (M : map (fun r => nth (length cols + 0) (classified r) PNaN) rs
              = map (fun r => PBool (is_keigo (verdict_of r))) rs).
  { apply map_ext_in; intros r I. unfold classified.
    rewrite Forall_forall in W. rewrite <- (W r I). now rewrite nth_past. }
  rewrite M, as_mask_bools. cbn [or_raise and_then].
  unfold select. cbn [columns rows index]. now rewrite keep_map_filter.
Qed.

Lemma classify_table_unfiltered_witness :
  let cols := [u8 "話者"; u8 "セリフ"] in
  let rs := [ [PStr (u8 "客"); PStr (u8 "これはペンです。")];
              [PStr (u8 "友"); PStr (u8 "今日は天気がいいね")];
              [PStr (u8 "店員"); PNaN] ] in
  exists out_all out_keigo,
    classify_table builtin (range_frame cols rs) (u8 "セリフ") NOT_USED None
    = inr (out_all, out_keigo)
    /\ length (rows out_all) = 3
    /\ index out_keigo = [0]
    /\ map (firstn 2) (rows out_all) = rs.
Proof.
  intros cols rs. do 2 eexists. split.
  - apply (@classify_table_unfiltered sre builtin cols rs (u8 "セリフ") 1 None).
    + discriminate.
    + reflexivity.
    + reflexivity.
    + repeat constructor.
  - repeat split; vm_compute; reflexivity.
Defined.

(** C3, where the code departs from it: on a table without rows the
    expansion of the (empty) series of verdicts has no [is_keigo] column,
    and the pass ends in [KeyError] at line 132 instead of returning two
    empty views.  (On a table with rows the pass does what C3 says:
    [classify_table_unfiltered].) *)
Theorem empty_table_raises `{ReModule} (st : store)
  (cols : list text) (text_col : text) (j : nat) (fv : option text) :
  position text_col cols = Some j ->
  position IS_KEIGO cols = None ->
  classify_table st (range_frame cols []) text_col NOT_USED fv = inl KeyError.
Proof.
  intros P K. unfold classify_table, range_frame. rewrite filter_off.
  cbn [and_then]. unfold column at 1. cbn [columns rows index].
  rewrite P. cbn [or_raise and_then map expand length seq].
  unfold concat_axis1, reset_index, column.
  cbn [columns rows index length seq app filter map].
  rewrite position_app by exact K. cbn [position].
  destruct (text_eqb text_col IS_KEIGO) eqn:E; [|reflexivity].
  apply text_eqb_eq in E. congruence.
Qed.

Lemma empty_table_raises_witness :
  position (u8 "セリフ") [u8 "話者"; u8 "セリフ"] = Some 1
  /\ position IS_KEIGO [u8 "話者"; u8 "セリフ"] = None
  /\ classify_table builtin (range_frame [u8 "話者"; u8 "セリフ"] [])
       (u8 "セリフ") NOT_USED None = inl KeyError.
Proof.
  split; [reflexivity|]. split; [reflexivity|].
  apply (@empty_table_raises sre builtin [u8 "話者"; u8 "セリフ"]
           (u8 "セリフ") 1 None); reflexivity.
Defined.

Lemma keep_In {A} (mask : list bool) (l : list A) x :
  In x (keep mask l) -> In x l.
Proof.
  revert l; induction mask as [|b mask IH]; intros [|y l]; simpl; try tauto.
  - destruct b; tauto.
  - destruct b; simpl; intros I; [destruct I as [->|I]|]; auto.
Qed.

Lemma row_at_absent idx rs l : ~ In l idx -> row_at idx rs l = None.
Proof.
  revert rs; induction idx as [|i idx IH]; intros [|r rs] N; try reflexivity.
  simpl. destruct (i =? l) eqn:E.
  - apply Nat.eqb_eq in E. subst. exfalso; apply N; now left.
  - apply IH. intros I; apply N; now right.
Qed.

Lemma keep_filter {A} (b : A -> bool) (l : list A) :
  keep (map b l) l = filter b l.
Proof.
  induction l as [|x l IH]; simpl; [reflexivity|].
  destruct (b x); simpl; now rewrite IH.
Qed.

(** With the filter on, a table whose first row is filtered out while some
    row is kept ends in [ValueError]: no verdict carries the label 0, so
    the first row of [out_all] has NaN in its [is_keigo] cell. *)
Theorem filter_dropping_first_row `{ReModule} (st : store)
  (cols : list text) (r0 : list pyval) (rs : list (list pyval))
  (text_col filter_col filter_val : text) (j jf : nat) :
  filter_on filter_col (Some filter_val) = true ->
  position filter_col cols = Some jf ->
  position text_col cols = Some j ->
  position IS_KEIGO cols = None ->
  Forall (fun r => length r = length cols) rs ->
  text_eqb (py_str (nth jf r0 PNaN)) filter_val = false ->
  (exists r, In r rs /\ text_eqb (py_str (nth jf r PNaN)) filter_val = true) ->
  classify_table st (range_frame cols (r0 :: rs)) text_col filter_col
    (Some filter_val)
  = inl ValueError.
Proof.
  intros On Pf Pt K W Drop (r & I & Keep).
  set (b := fun r => text_eqb (py_str (nth jf r PNaN)) filter_val).
  unfold classify_table, range_frame. rewrite On.
  unfold restrict, column at 1. cbn [columns rows index].
  rewrite Pf. cbn [or_raise and_then]. rewrite map_map.
  cbn [map length seq]. rewrite Drop.
  unfold select. cbn [columns rows index keep].
  change (map (fun x => text_eqb (py_str (nth jf x PNaN)) filter_val) rs)
    with (map b rs).
  rewrite keep_filter.
  set (idx := keep (map b rs) (seq 1 (length rs))).
  assert (I0 : ~ In 0 idx).
  { intros X. apply keep_In, in_seq in X. lia. }
  destruct (filter b rs) as [|w ws] eqn:F.
  { assert (X : In r (filter b rs)) by (apply filter_In; split; assumption).
    rewrite F in X. destruct X. }
  assert (Lw : length w = length cols).
  { rewrite Forall_forall in W. apply W.
    assert (X : In w (filter b rs)) by (rewrite F; now left).
    now apply filter_In in X. }
  unfold column at 1. cbn [columns rows]. rewrite Pt.
  cbn [or_raise and_then map expand].
  unfold concat_axis1, reset_index, column.
  cbn [columns rows index length seq app map].
  rewrite position_app by exact K.
  change (position IS_KEIGO RESULT_KEYS) with (Some 0).
  cbn [option_map or_raise and_then map row_at Nat.eqb or_nan].
  rewrite (@row_at_absent idx _ 0 I0). cbn [or_nan].
  rewrite <- Lw, nth_past. reflexivity.
Qed.

Lemma filter_dropping_first_row_witness :
  let cols := [u8 "話者"; u8 "セリフ"] in
  let r0 := [PStr (u8 "A"); PStr (u8 "行く")] in
  let rs := [ [PStr (u8 "B"); PStr (u8 "食べます")];
              [PStr (u8 "A"); PStr (u8 "帰る")] ] in
  classify_table builtin (range_frame cols (r0 :: rs))
    (u8 "セリフ") (u8 "話者") (Some (u8 "B"))
  = inl ValueError.
Proof.
  intros cols r0 rs.
  apply (@filter_dropping_first_row sre builtin cols r0 rs
           (u8 "セリフ") (u8 "話者") (u8 "B") 1 0);
    try reflexivity.
  - repeat constructor.
  - exists [PStr (u8 "B"); PStr (u8 "食べます")]. split; [now left | reflexivity].
Defined.

Lemma keep_leading {A} (m k : nat) (l : list A) :
  keep (repeat true m ++ repeat false k) l = firstn m (firstn (m + k) l).
Proof.
  revert l; induction m as [|m IH]; intros l; simpl.
  - revert l; induction k as [|k IHk]; intros [|x l]; simpl; auto.
  - destruct l as [|x l]; simpl; [reflexivity|]. now rewrite IH.
Qed.

Lemma firstn_seq m n a : m <= n -> firstn m (seq a n) = seq a m.
Proof.
  revert a n; induction m as [|m IH]; intros a [|n] L; simpl; try reflexivity;
    try lia. f_equal. apply IH. lia.
Qed.

Lemma filter_leading {A} (b : A -> bool) (l : list A) m k :
  map b l = repeat true m ++ repeat false k ->
  length (filter b l) = m /\ length l = m + k.
Proof.
  intros E. split.
  - rewrite <- (keep_filter b l), E, keep_leading.
    assert (L : length l = m + k).
    { rewrite <- (length_map b l), E, length_app, !repeat_length. lia. }
    rewrite firstn_all2 with (n := m + k) by lia.
    rewrite length_firstn. lia.
  - rewrite <- (length_map b l), E, length_app, !repeat_length. lia.
Qed.

(** When the rows the filter keeps are the leading rows of the table, the
    pass with the filter is the pass without a filter on the table of the
    kept rows. *)
Theorem filter_keeping_leading_rows `{ReModule} (st : store)
  (cols : list text) (rs : list (list pyval))
  (text_col filter_col filter_val : text) (jf m k : nat) :
  filter_on filter_col (Some filter_val) = true ->
  position filter_col cols = Some jf ->
  map (fun r => text_eqb (py_str (nth jf r PNaN)) filter_val) rs
  = repeat true m ++ repeat false k ->
  classify_table st (range_frame cols rs) text_col filter_col (Some filter_val)
  = classify_table st
      (restricted_table (range_frame cols rs) filter_col filter_val)
      text_col NOT_USED None.
Proof.
  intros On Pf Lead.
  unfold restricted_table. cbn [range_frame columns rows]. rewrite Pf.
  fold (range_frame cols rs).
  set (b := fun r => text_eqb (py_str (nth jf r PNaN)) filter_val) in *.
  destruct (filter_leading b rs m k Lead) as [Lm Ln].
  unfold classify_table. rewrite On, filter_off.
  unfold restrict, column, range_frame. cbn [columns rows index].
  rewrite Pf. cbn [or_raise and_then]. rewrite map_map. fold b.
  unfold select. cbn [columns rows index].
  rewrite keep_filter, Lead, keep_leading, Ln, Lm.
  rewrite firstn_all2 with (n := m + k) by (rewrite length_seq; lia).
  rewrite firstn_seq by lia. reflexivity.
Qed.

Lemma filter_keeping_leading_rows_witness :
  let cols := [u8 "話者"; u8 "セリフ"] in
  let rs := [ [PStr (u8 "A"); PStr (u8 "行きます")];
              [PStr (u8 "B"); PStr (u8 "食べる")] ] in
  classify_table builtin (range_frame cols rs)
    (u8 "セリフ") (u8 "話者") (Some (u8 "A"))
  = classify_table builtin
      (restricted_table (range_frame cols rs) (u8 "話者") (u8 "A"))
      (u8 "セリフ") NOT_USED None.
Proof.
  intros cols rs.
  apply (@filter_keeping_leading_rows sre builtin cols rs
           (u8 "セリフ") (u8 "話者") (u8 "A") 0 1 1); reflexivity.
Defined.

(** C7, where the code departs from it: with the filter on, the verdicts
    keep the row labels of the rows the filter kept while the rows
    themselves are relabelled from 0, and [pd.concat] joins them label by
    label.  When the second row of a table of two is the one kept, the
    join has two rows with NaN cells and the mask of line 132 is refused;
    the pass without a filter on the restricted table returns its single
    row, classified. *)
Theorem filtered_pass_misaligned `{ReModule} (st : store) :
  let cols := [u8 "話者"; u8 "セリフ"] in
  let row_a := [PStr (u8 "A"); PStr (u8 "行く")] in
  let row_b := [PStr (u8 "B"); PStr (u8 "食べます")] in
  let df := range_frame cols [row_a; row_b] in
  classify_table st df (u8 "セリフ") (u8 "話者") (Some (u8 "B"))
  = inl ValueError
  /\ restrict df (u8 "話者") (u8 "B") = inr (Frame cols [1] [row_b])
  /\ restricted_table df (u8 "話者") (u8 "B") = Frame cols [0] [row_b]
  /\ exists out_keigo,
       classify_table st (restricted_table df (u8 "話者") (u8 "B"))
         (u8 "セリフ") NOT_USED None
       = inr (Frame (cols ++ RESULT_KEYS) [0]
                [row_b ++ verdict_cells (classify_keigo st (PStr (u8 "食べます")))],
              out_keigo).
Proof.
  intros cols row_a row_b df.
  split; [reflexivity|]. split; [reflexivity|]. split; [reflexivity|].
  eexists.
  apply (@classify_table_unfiltered _ st cols [row_b] (u8 "セリフ") 1 None).
  - discriminate.
  - reflexivity.
  - reflexivity.
  - repeat constructor.
Qed.

(** ** The matcher never runs out of fuel *)

Lemma later_refl i s : later i s i s.
Proof. exists 0. repeat split; [lia | lia]. Qed.

Lemma later_trans i s i1 s1 i2 s2 :
  later i s i1 s1 -> later i1 s1 i2 s2 -> later i s i2 s2.
Proof.
  intros (d1 & -> & -> & L1) (d2 & -> & -> & L2).
  rewrite length_skipn in L2.
  exists (d1 + d2). rewrite skipn_skipn.
  repeat split; [lia | f_equal; lia | lia].
Qed.

Lemma later_step i c s : later i (c :: s) (S i) s.
Proof. exists 1. simpl. repeat split; lia. Qed.

Lemma later_length i s i' s' :
  later i s i' s' -> i <= i' /\ length s' + (i' - i) = length s.
Proof.
  intros (d & -> & -> & L). rewrite length_skipn. lia.
Qed.

Section RepLoopFacts.

Variable body : matcher.
Variables (lo : nat) (hi : option nat).
Hypothesis body_reaches : reaches body.
Hypothesis body_local : local body.

Lemma rep_loop_reaches k fuel count last i s mk x :
  Sre.rep_loop body lo hi k fuel count last i s mk = Some x ->
  exists i' s' mk', later i s i' s' /\ k i' s' mk' = Some x.
Proof.
  revert count last i s mk; induction fuel as [|fuel IH];
    intros count last i s mk; simpl; [discriminate|].
  assert (B : forall l,
             body i s mk
               (fun i' s' mk' => Sre.rep_loop body lo hi k fuel (S count) l i' s' mk')
             = Some x ->
             exists i' s' mk', later i s i' s' /\ k i' s' mk' = Some x).
  { intros l E. apply body_reaches in E as (i1 & s1 & mk1 & L1 & E).
    apply IH in E as (i2 & s2 & mk2 & L2 & E).
    exists i2, s2, mk2; split; [eapply later_trans; eassumption | exact E]. }
  destruct (count <? lo); [apply B|].
  destruct (Sre.below count hi && negb (Sre.same_pos last i)).
  - destruct (body i s mk _) eqn:E.
    + intros X; injection X as ->. now apply B in E.
    + intros E'. exists i, s, mk; split; [apply later_refl | exact E'].
  - intros E'. exists i, s, mk; split; [apply later_refl | exact E'].
Qed.

Lemma rep_loop_local k1 k2 fuel count last i s mk :
  (forall i' s' mk', later i s i' s' -> k1 i' s' mk' = k2 i' s' mk') ->
  Sre.rep_loop body lo hi k1 fuel count last i s mk
  = Sre.rep_loop body lo hi k2 fuel count last i s mk.
Proof.
  revert count last i s mk; induction fuel as [|fuel IH];
    intros count last i s mk K; simpl; [reflexivity|].
  assert (B : forall l,
             body i s mk
               (fun i' s' mk' => Sre.rep_loop body lo hi k1 fuel (S count) l i' s' mk')
             = body i s mk
                 (fun i' s' mk' => Sre.rep_loop body lo hi k2 fuel (S count) l i' s' mk')).
  { intros l. apply body_local. intros i1 s1 mk1 L1. apply IH.
    intros i2 s2 mk2 L2. apply K. eapply later_trans; eassumption. }
  rewrite !B, (K i s mk (later_refl i s)). reflexivity.
Qed.

(** With the fuel it needs, a repetition gives the same result as with any
    larger amount. *)
Lemma rep_loop_fuel k f1 f2 count last i s mk :
  rep_need lo count last i s <= f1 ->
  rep_need lo count last i s <= f2 ->
  Sre.rep_loop body lo hi k f1 count last i s mk
  = Sre.rep_loop body lo hi k f2 count last i s mk.
Proof.
  revert f2 count last i s mk; induction f1 as [|f1 IH];
    intros f2 count last i s mk N1 N2.
  { unfold rep_need in N1.
    destruct (count <? lo); [lia|]. destruct (Sre.same_pos last i); lia. }
  destruct f2 as [|f2].
  { unfold rep_need in N2.
    destruct (count <? lo); [lia|]. destruct (Sre.same_pos last i); lia. }
  simpl. unfold rep_need in N1, N2.
  destruct (count <? lo) eqn:C.
  - apply body_local. intros i1 s1 mk1 L1.
    apply later_length in L1 as [L1 L1'].
    apply Nat.ltb_lt in C.
    apply IH; unfold rep_need;
      destruct (S count <? lo); try destruct (Sre.same_pos last i1); lia.
  - destruct (Sre.same_pos last i) eqn:P.
    + now rewrite andb_false_r.
    + destruct (Sre.below count hi); [|reflexivity]. simpl.
      assert (B : body i s mk
                    (fun i' s' mk' => Sre.rep_loop body lo hi k f1 (S count) (Some i) i' s' mk')
                  = body i s mk
                      (fun i' s' mk' => Sre.rep_loop body lo hi k f2 (S count) (Some i) i' s' mk')).
      { apply body_local. intros i1 s1 mk1 L1.
        apply later_length in L1 as [L1 L1'].
        apply Nat.ltb_ge in C.
        apply IH; unfold rep_need;
          (destruct (S count <? lo) eqn:C'; [apply Nat.ltb_lt in C'; lia|]);
          simpl; destruct (i =? i1) eqn:Q;
          try (apply Nat.eqb_neq in Q); lia. }
      now rewrite B.
Qed.

End RepLoopFacts.

Lemma one_char_reaches ok : reaches (Sre.one_char ok).
Proof.
  intros i [|c s] mk k x; simpl; [discriminate|].
  destruct (ok c); [|discriminate].
  intros E. exists (S i), s, mk; split; [apply later_step | exact E].
Qed.

Lemma one_char_local ok : local (Sre.one_char ok).
Proof.
  intros i [|c s] mk k1 k2 K; simpl; [reflexivity|].
  destruct (ok c); [|reflexivity]. apply K, later_step.
Qed.

Lemma exec_reaches r : reaches (Sre.exec r).
Proof.
  induction r as [|c| |neg items| | |r1 IH1 r2 IH2|r1 IH1 r2 IH2|n r1 IH1
                 |lo hi r1 IH1];
    intros i s mk k x; simpl.
  - intros E; exists i, s, mk; split; [apply later_refl | exact E].
  - apply one_char_reaches.
  - apply one_char_reaches.
  - apply one_char_reaches.
  - destruct (i =? 0); [|discriminate].
    intros E; exists i, s, mk; split; [apply later_refl | exact E].
  - destruct (Sre.at_end s); [|discriminate].
    intros E; exists i, s, mk; split; [apply later_refl | exact E].
  - intros E. apply IH1 in E as (i1 & s1 & mk1 & L1 & E).
    apply IH2 in E as (i2 & s2 & mk2 & L2 & E).
    exists i2, s2, mk2; split; [eapply later_trans; eassumption | exact E].
  - destruct (Sre.exec r1 i s mk k) eqn:E.
    + intros X; injection X as ->. now apply IH1 in E.
    + apply IH2.
  - intros E. apply IH1 in E as (i1 & s1 & mk1 & L1 & E).
    exists i1, s1, (Sre.set_mark mk1 (n - 1) (i, i1)); split; assumption.
  - apply rep_loop_reaches. exact IH1.
Qed.

Lemma exec_local r : local (Sre.exec r).
Proof.
  induction r as [|c| |neg items| | |r1 IH1 r2 IH2|r1 IH1 r2 IH2|n r1 IH1
                 |lo hi r1 IH1];
    intros i s mk k1 k2 K; simpl.
  - apply K, later_refl.
  - now apply one_char_local.
  - now apply one_char_local.
  - now apply one_char_local.
  - destruct (i =? 0); [apply K, later_refl | reflexivity].
  - destruct (Sre.at_end s); [apply K, later_refl | reflexivity].
  - apply IH1. intros i1 s1 mk1 L1. apply IH2. intros i2 s2 mk2 L2.
    apply K. eapply later_trans; eassumption.
  - now rewrite (IH1 i s mk k1 k2 K), (IH2 i s mk k1 k2 K).
  - apply IH1. intros i1 s1 mk1 L1. now apply K.
  - apply rep_loop_local; assumption.
Qed.

(** The fuel [exec] gives a repetition is enough: any larger amount gives
    the same result. *)
Theorem exec_rep_fuel lo hi r i s mk k fuel :
  lo + length s + 2 <= fuel ->
  Sre.exec (Sre.Rep lo hi r) i s mk k
  = Sre.rep_loop (Sre.exec r) lo hi k fuel 0 None i s mk.
Proof.
  intros F. simpl. apply rep_loop_fuel.
  - apply exec_local.
  - unfold rep_need. destruct (0 <? lo); simpl; lia.
  - unfold rep_need. destruct (0 <? lo); simpl; lia.
Qed.

(** A match found from [i] lies in the text from [i] on, and is not empty
    at [i] when the search had to advance. *)
Lemma search_here r ng must i s j mk :
  Sre.exec r i s (repeat None ng)
    (fun i' _ mk' => if must && (i' =? i) then None else Some (i', mk'))
  = Some (j, mk) ->
  i <= j /\ j <= i + length s /\ (must = true -> i < j).
Proof.
  intros E. apply exec_reaches in E as (i1 & s1 & mk1 & L & E).
  apply later_length in L as [L L'].
  destruct (must && (i1 =? i)) eqn:A; [discriminate E|].
  injection E as <- <-. repeat split; try lia.
  intros ->. simpl in A. apply Nat.eqb_neq in A. lia.
Qed.

Lemma search_bounds r ng must i s m :
  Sre.search r ng must i s = Some m ->
  i <= m_start m /\ m_start m <= m_end m /\ m_end m <= i + length s
  /\ (must = true -> i < m_end m).
Proof.
  revert must i; induction s as [|c s IH]; intros must i; simpl;
    destruct (Sre.exec r i _ _ _) as [[j mk]|] eqn:E.
  - apply search_here in E as (E1 & E2 & E3).
    intros X; injection X as <-; simpl in *. repeat split; auto; lia.
  - discriminate.
  - apply search_here in E as (E1 & E2 & E3).
    intros X; injection X as <-; simpl in *. repeat split; auto; lia.
  - intros S. apply IH in S as (S1 & S2 & S3 & S4). simpl.
    repeat split; intros; lia.
Qed.

Lemma scan_fuel r ng f1 f2 must i s :
  scan_need must s <= f1 -> scan_need must s <= f2 ->
  Sre.scan f1 r ng must i s = Sre.scan f2 r ng must i s.
Proof.
  revert f2 must i s; induction f1 as [|f1 IH]; intros f2 must i s N1 N2.
  { unfold scan_need in N1; destruct must; lia. }
  destruct f2 as [|f2].
  { unfold scan_need in N2; destruct must; lia. }
  simpl. destruct (Sre.search r ng must i s) as [m|] eqn:S; [|reflexivity].
  f_equal. apply search_bounds in S as (S1 & S2 & S3 & S4).
  unfold scan_need in *.
  apply IH; rewrite length_skipn;
    (destruct (m_end m =? m_start m) eqn:Q;
     [apply Nat.eqb_eq in Q | apply Nat.eqb_neq in Q]);
    destruct must; try specialize (S4 eq_refl); lia.
Qed.

(** The fuel [finditer] gives the scan is enough: any larger amount gives
    the same matches. *)
Theorem finditer_fuel (r : Sre.regex) (s : text) (fuel : nat) :
  2 * length s + 2 <= fuel ->
  Sre.scan fuel r (Sre.ngroups r) false 0 s = Sre.finditer r s.
Proof.
  intros F. unfold Sre.finditer. apply scan_fuel; unfold scan_need; lia.
Qed.

(** ** The parser never runs out of fuel *)

Lemma eat_length c s r : Sre.eat c s = Some r -> length s = S (length r).
Proof.
  destruct s as [|d s]; simpl; [discriminate|].
  destruct (d =? c)%N; [|discriminate]. now intros [= ->].
Qed.

Lemma class_atom_length s it r :
  Sre.class_atom s = Some (it, r) -> length r < length s.
Proof.
  destruct s as [|c s]; simpl; [discriminate|].
  destruct (c =? 92)%N.
  - destruct s as [|e s]; [discriminate|].
    destruct (e =? 115)%N; [intros [= _ <-]; simpl; lia|].
    destruct (Sre.is_ascii_alnum e); [discriminate|].
    intros [= _ <-]; simpl; lia.
  - intros [= _ <-]; simpl; lia.
Qed.

Lemma class_items_length f s first acc items r :
  Sre.class_items f s first acc = Some (items, r) -> length r < length s.
Proof.
  revert s first acc; induction f as [|f IH]; intros s first acc; simpl;
    [discriminate|].
  destruct s as [|c s]; [discriminate|].
  destruct ((c =? 93)%N && negb first); [intros [= _ <-]; simpl; lia|].
  destruct (Sre.class_atom (c :: s)) as [[it r1]|] eqn:A; [|discriminate].
  apply class_atom_length in A.
  destruct (Sre.eat 45 r1) as [r2|] eqn:E1.
  - apply eat_length in E1.
    destruct (Sre.eat 93 r2) as [r3|] eqn:E2.
    + intros X; apply IH in X. lia.
    + destruct it as [lo| |]; try discriminate.
      destruct (Sre.class_atom r2) as [[[hi| |] r3]|] eqn:A2; try discriminate.
      apply class_atom_length in A2.
      destruct (lo <=? hi)%N; [|discriminate].
      intros X; apply IH in X. lia.
  - intros X; apply IH in X. lia.
Qed.

Lemma class_items_fuel f1 f2 s first acc :
  length s < f1 -> length s < f2 ->
  Sre.class_items f1 s first acc = Sre.class_items f2 s first acc.
Proof.
  revert f2 s first acc; induction f1 as [|f1 IH]; intros f2 s first acc F1 F2;
    [lia|]. destruct f2 as [|f2]; [lia|]. simpl.
  destruct s as [|c s]; [reflexivity|].
  destruct ((c =? 93)%N && negb first); [reflexivity|].
  destruct (Sre.class_atom (c :: s)) as [[it r1]|] eqn:A; [|reflexivity].
  apply class_atom_length in A.
  destruct (Sre.eat 45 r1) as [r2|] eqn:E1.
  - apply eat_length in E1.
    destruct (Sre.eat 93 r2) as [r3|] eqn:E2.
    + apply IH; lia.
    + destruct it as [lo| |]; try reflexivity.
      destruct (Sre.class_atom r2) as [[[hi| |] r3]|] eqn:A2; try reflexivity.
      apply class_atom_length in A2.
      destruct (lo <=? hi)%N; [|reflexivity].
      apply IH; lia.
  - apply IH; lia.
Qed.

Lemma digits_length s acc a r :
  Sre.digits s acc = (a, r) -> length r <= length s.
Proof.
  revert acc; induction s as [|c s IH]; intros acc; simpl.
  - intros [= _ <-]. simpl; lia.
  - destruct (Sre.is_digit c).
    + intros X; apply IH in X. lia.
    + intros [= _ <-]. simpl; lia.
Qed.

Lemma braces_length s lo hi r :
  Sre.braces s = Sre.Quant lo hi r -> length r < length s.
Proof.
  unfold Sre.braces. destruct (Sre.eat 125 s); [discriminate|].
  destruct (Sre.digits s None) as [a r1] eqn:D1.
  apply digits_length in D1.
  destruct (Sre.eat 44 r1) as [q|] eqn:E1.
  - apply eat_length in E1.
    destruct (Sre.digits q None) as [b r2] eqn:D2.
    apply digits_length in D2.
    destruct (Sre.eat 125 r2) as [r3|] eqn:E2; [|discriminate].
    apply eat_length in E2.
    destruct (Sre.too_large a || Sre.too_large b); [discriminate|].
    intros [= _ _ <-]. lia.
  - destruct (Sre.eat 125 r1) as [r3|] eqn:E2; [|discriminate].
    apply eat_length in E2.
    destruct (Sre.too_large a || Sre.too_large a); [discriminate|].
    intros [= _ _ <-]. lia.
Qed.

Lemma quantifier_length s lo hi r :
  Sre.quantifier s = Sre.Quant lo hi r -> length r < length s.
Proof.
  destruct s as [|c s]; simpl; [discriminate|].
  destruct (c =? 42)%N; [intros [= _ _ <-]; lia|].
  destruct (c =? 43)%N; [intros [= _ _ <-]; lia|].
  destruct (c =? 63)%N; [intros [= _ _ <-]; lia|].
  destruct (c =? 123)%N; [|discriminate].
  intros X; apply braces_length in X. lia.
Qed.

Lemma char_set_length s x r :
  Sre.char_set s = Some (x, r) -> length r < length s.
Proof.
  unfold Sre.char_set.
  destruct (Sre.class_items _ _ _ _) as [[items r1]|] eqn:C; [|discriminate].
  apply class_items_length in C. intros [= _ <-].
  destruct (Sre.eat 94 s) eqn:E; [apply eat_length in E|]; lia.
Qed.

Ltac split_parse :=
  repeat match goal with
         | |- context [match ?x with _ => _ end] =>
           match type of x with
           | option _ => let E := fresh "E" in destruct x as [?|] eqn:E
           | sum _ _ => let E := fresh "E" in destruct x as [?|?] eqn:E
           | Sre.quant => let E := fresh "E" in destruct x as [|? ? ?|] eqn:E
           | prod _ _ => destruct x
           | list _ => destruct x
           | text => destruct x
           | Sre.item_kind => destruct x
           | bool => destruct x
           end
         | |- context [if ?b then _ else _] => destruct b
         end.

Ltac note_lengths :=
  repeat match goal with
         | H : Sre.eat _ _ = Some _ |- _ => apply eat_length in H
         | H : Sre.quantifier _ = Sre.Quant _ _ _ |- _ =>
           apply quantifier_length in H
         | H : Sre.char_set _ = Some _ |- _ => apply char_set_length in H
         end.

Lemma parse_length f :
  (forall s g x rest g',
      Sre.parse_alt f s g = inr (x, rest, g') -> length rest <= length s)
  /\ (forall s g acc kind x rest g',
         Sre.parse_items f s g acc kind = inr (x, rest, g') ->
         length rest <= length s).
Proof.
  induction f as [|f [IHa IHi]]; [split; intros; discriminate|].
  split.
  - intros s g x rest g'. simpl. split_parse; try discriminate;
      intros [= <- <- <-]; note_lengths;
      repeat match goal with
             | H : Sre.parse_alt f _ _ = inr _ |- _ => apply IHa in H
             | H : Sre.parse_items f _ _ _ _ = inr _ |- _ => apply IHi in H
             end; simpl in *; lia.
  - intros s g acc kind x rest g'. simpl.
    split_parse; try discriminate;
      try (intros [= <- <- <-]; simpl; lia);
      intros X; apply IHi in X; note_lengths;
      repeat match goal with
             | H : Sre.parse_alt f _ _ = inr _ |- _ => apply IHa in H
             end; simpl in *; lia.
Qed.

Ltac note_parsed :=
  note_lengths;
  repeat match goal with
         | H : Sre.parse_alt ?f _ _ = inr _ |- _ =>
           apply (proj1 (parse_length f)) in H
         | H : Sre.parse_items ?f _ _ _ _ = inr _ |- _ =>
           apply (proj2 (parse_length f)) in H
         end;
  simpl in *.

(** With the fuel they need, the two parsers give the same result as with
    any larger amount. *)
Lemma parse_fuel_both f1 f2 :
  (forall s g,
      2 * length s + 2 <= f1 -> 2 * length s + 2 <= f2 ->
      Sre.parse_alt f1 s g = Sre.parse_alt f2 s g)
  /\ (forall s g acc kind,
         2 * length s + 1 <= f1 -> 2 * length s + 1 <= f2 ->
         Sre.parse_items f1 s g acc kind = Sre.parse_items f2 s g acc kind).
Proof.
  revert f2; induction f1 as [|f1 IH]; intros f2; [split; intros; lia|].
  destruct f2 as [|f2]; [split; intros; lia|].
  destruct (IH f2) as [IHa IHi]. clear IH.
  split.
  - intros s g F1 F2. simpl.
    rewrite (IHi s g [] Sre.Anchor) by lia.
    destruct (Sre.parse_items f2 s g [] Sre.Anchor) as [e|[[x rest] g1]] eqn:E;
      [reflexivity|].
    destruct (Sre.eat 124 rest) as [rest'|] eqn:E'; [|reflexivity].
    rewrite (IHa rest' g1) by (note_parsed; lia). reflexivity.
  - intros s g acc kind F1 F2. simpl.
    repeat first
      [ reflexivity
      | match goal with
        | |- context [Sre.parse_alt f1 ?a ?b] =>
          rewrite (IHa a b) by (note_parsed; lia)
        | |- context [Sre.parse_items f1 ?a ?b ?c ?d] =>
          rewrite (IHi a b c d) by (note_parsed; lia)
        end
      | match goal with
        | |- context [match ?x with _ => _ end] =>
          match type of x with
          | option _ => let E := fresh "E" in destruct x as [?|] eqn:E
          | sum _ _ => let E := fresh "E" in destruct x as [?|?] eqn:E
          | Sre.quant => let E := fresh "E" in destruct x as [|? ? ?|] eqn:E
          | prod _ _ => destruct x
          | list _ => destruct x
          | text => destruct x
          | Sre.item_kind => destruct x
          | bool => destruct x
          end
        | |- context [if ?b then _ else _] => destruct b
        end ].
Qed.

(** The fuel [parse] gives is enough: any larger amount gives the same
    result. *)
Theorem parse_fuel (s : text) (fuel : nat) :
  2 * length s + 2 <= fuel ->
  Sre.parse s
  = match Sre.parse_alt fuel s 0 with
    | inr (r, [], _) => inr r
    | inr (_, _ :: _, _) => inl ReError
    | inl e => inl e
    end.
Proof.
  intros F. unfold Sre.parse.
  now rewrite (proj1 (parse_fuel_both (2 * length s + 2) fuel) s 0) by lia.
Qed.

Theorem char_set_fuel (s : text) (fuel : nat) (first : bool) acc :
  length s < fuel ->
  Sre.class_items fuel s first acc
  = Sre.class_items (S (length s)) s first acc.
Proof. intros F. apply class_items_fuel; lia. Qed.

(** ** More on [_hits] and the verdict *)

(** The hits of a list of rules are as many as the occurrences of its
    rules, taken together. *)
Theorem hits_count `{ReModule} (ps : list pattern) (s : text) :
  length (_hits ps s) = list_sum (map (fun p => length (finditer p s)) ps).
Proof.
  rewrite hits_flat_map. induction ps as [|p ps IH]; simpl; [reflexivity|].
  rewrite length_app, IH. unfold rule_hits, findall. now rewrite !length_map.
Qed.

Lemma hits_nil_iff `{ReModule} (ps : list pattern) (s : text) :
  _hits ps s = [] <-> forall p, In p ps -> finditer p s = [].
Proof.
  rewrite hits_flat_map. induction ps as [|p ps IH]; simpl.
  - split; [intros _ p [] | reflexivity].
  - split.
    + intros E. apply app_eq_nil in E as [E1 E2].
      intros q [<-|I]; [|now apply IH].
      unfold rule_hits, findall in E1.
      now destruct (finditer p s).
    + intros A. rewrite (proj2 IH) by (intros q I; apply A; now right).
      unfold rule_hits, findall. rewrite (A p) by now left. reflexivity.
Qed.

(** A category counts nothing exactly when the text is blank or none of
    its rules occurs in the text. *)
Theorem count_zero_iff `{ReModule} (st : store) (c : category) (t : text) :
  cnt c (classify_keigo st (PStr t)) = 0
  <-> blank t = true \/ forall p, In p (rules c st) -> finditer p t = [].
Proof.
  destruct (strip t) eqn:S.
  - assert (B : blank t = true) by now apply strip_nil.
    unfold classify_keigo; rewrite S. destruct c; simpl; tauto.
  - assert (B : blank t <> true) by (rewrite <- strip_nil; congruence).
    rewrite cnt_classify by congruence.
    rewrite length_zero_iff_nil, hits_nil_iff. tauto.
Qed.

(** A text is keigo exactly when it is not blank and some rule of some
    category occurs in it. *)
Theorem is_keigo_iff_occurrence `{ReModule} (st : store) (t : text) :
  is_keigo (classify_keigo st (PStr t)) = true
  <-> blank t = false
      /\ exists c p, In p (rules c st) /\ finditer p t <> [].
Proof.
  destruct (strip t) eqn:S.
  - assert (B : blank t = true) by now apply strip_nil.
    unfold classify_keigo; rewrite S, B. simpl.
    split; [discriminate | intros [X _]; discriminate].
  - assert (B : blank t = false).
    { destruct (blank t) eqn:B; [|reflexivity].
      apply strip_nil in B. congruence. }
    unfold classify_keigo; rewrite S, B. cbn [is_keigo existsb].
    rewrite orb_false_r, !orb_true_iff.
    assert (T : forall ps, truthy (_hits ps t) = true
                           <-> exists p, In p ps /\ finditer p t <> []).
    { intros ps. split.
      - intros X. destruct (_hits ps t) as [|h hs] eqn:E; [discriminate|].
        clear X. rewrite hits_flat_map in E.
        assert (I : In h (flat_map (rule_hits t) ps)) by (rewrite E; now left).
        apply in_flat_map in I as (p & I & J). exists p; split; [exact I|].
        unfold rule_hits, findall in J. intros Z; rewrite Z in J. destruct J.
      - intros (p & I & N). destruct (_hits ps t) eqn:E; [|reflexivity].
        exfalso. apply N. exact (proj1 (hits_nil_iff ps t) E p I). }
    rewrite !T. split.
    + intros X. split; [reflexivity|].
      destruct X as [(p & I & N)|[(p & I & N)|[(p & I & N)|(p & I & N)]]];
        [exists Respect|exists Humble|exists Polite|exists Beautifier];
        exists p; split; assumption.
    + intros [_ (c & p & I & N)]. destruct c; simpl in I; eauto 6.
Qed.

Lemma hits_count_perm `{ReModule} (ps qs : list pattern) (s : text) :
  Permutation ps qs -> length (_hits ps s) = length (_hits qs s).
Proof.
  intros P. rewrite !hits_count.
  induction P; simpl; try lia.
Qed.

(** The order of the rules inside the lists decides the order of the hits
    and nothing else: stores whose lists hold the same rules give the same
    counts and the same verdict. *)
Theorem rule_order_irrelevant `{ReModule} (st st' : store) (v : pyval) :
  (forall c, Permutation (rules c st) (rules c st')) ->
  (forall c, cnt c (classify_keigo st v) = cnt c (classify_keigo st' v))
  /\ is_keigo (classify_keigo st v) = is_keigo (classify_keigo st' v).
Proof.
  intros P.
  assert (C : forall c, cnt c (classify_keigo st v) = cnt c (classify_keigo st' v)).
  { intros c. destruct v as [t| | | |]; try reflexivity.
    destruct (strip t) eqn:S.
    - unfold classify_keigo; now rewrite S.
    - rewrite !cnt_classify by congruence. apply hits_count_perm, P. }
  split; [exact C|].
  destruct v as [t| | | |]; try reflexivity.
  unfold classify_keigo. destruct (strip t); [reflexivity|].
  cbn [is_keigo existsb]. rewrite !truthy_length.
  pose proof (@hits_count_perm _ _ _ t (P Respect)) as C1.
  pose proof (@hits_count_perm _ _ _ t (P Humble)) as C2.
  pose proof (@hits_count_perm _ _ _ t (P Polite)) as C3.
  pose proof (@hits_count_perm _ _ _ t (P Beautifier)) as C4.
  cbn [rules] in C1, C2, C3, C4. now rewrite C1, C2, C3, C4.
Qed.

(** ** [strip] and [_lines] *)

Lemma lstrip_suffix (s : text) : exists w, s = w ++ lstrip s.
Proof.
  induction s as [|c s [w IH]]; simpl; [now exists []|].
  destruct (py_isspace c).
  - exists (c :: w). simpl. now rewrite <- IH.
  - now exists [].
Qed.

Lemma lstrip_fixed (s : text) :
  match s with c :: _ => py_isspace c = false | [] => True end ->
  lstrip s = s.
Proof. destruct s as [|c s]; simpl; [reflexivity|]. now intros ->. Qed.

Lemma lstrip_idem (s : text) : lstrip (lstrip s) = lstrip s.
Proof.
  apply lstrip_fixed. destruct (lstrip s) as [|c t] eqn:E; [exact I|].
  now apply lstrip_head in E.
Qed.

Lemma rstrip_prefix (s : text) : exists w, s = rstrip s ++ w.
Proof.
  unfold rstrip. destruct (lstrip_suffix (rev s)) as [w E].
  exists (rev w). rewrite <- rev_app_distr, <- E. now rewrite rev_involutive.
Qed.

Lemma rstrip_idem (s : text) : rstrip (rstrip s) = rstrip s.
Proof. unfold rstrip. now rewrite rev_involutive, lstrip_idem. Qed.

(** Stripping a stripped text changes nothing. *)
Lemma strip_idem (s : text) : strip (strip s) = strip s.
Proof.
  unfold strip.
  assert (L : lstrip (rstrip (lstrip s)) = rstrip (lstrip s)).
  { apply lstrip_fixed.
    destruct (rstrip_prefix (lstrip s)) as [w E].
    destruct (rstrip (lstrip s)) as [|c t]; [exact I|].
    destruct (lstrip s) as [|d u] eqn:D; [discriminate|].
    injection E as -> _. now apply lstrip_head in D. }
  now rewrite L, rstrip_idem.
Qed.

(** The characters of a stripped text are characters of the text. *)
Lemma strip_incl (s : text) c : In c (strip s) -> In c s.
Proof.
  unfold strip. intros I.
  destruct (rstrip_prefix (lstrip s)) as [w1 E1].
  destruct (lstrip_suffix s) as [w2 E2].
  rewrite E2. apply in_or_app; right.
  rewrite E1. apply in_or_app; now left.
Qed.

Lemma splitlines_from_cons (pending : text) (d : N) (s : text) :
  splitlines_from pending (d :: s)
  = if (d =? 13)%N then rev pending :: splitlines_from [] (after_cr s)
    else if is_linebreak d then rev pending :: splitlines_from [] s
    else splitlines_from (d :: pending) s.
Proof.
  cbn [splitlines_from]. destruct (d =? 13)%N; [|reflexivity].
  destruct s as [|e s]; [reflexivity|]. unfold after_cr.
  destruct e as [|p]; [reflexivity|].
  do 4 (try destruct p as [p|p|]); reflexivity.
Qed.

Lemma after_cr_length (s : text) : length (after_cr s) <= length s.
Proof.
  destruct s as [|e s]; simpl; [lia|]. destruct (e =? 10)%N; simpl; lia.
Qed.

Lemma after_cr_incl (s : text) c : In c (after_cr s) -> In c s.
Proof.
  destruct s as [|e s]; simpl; [tauto|]. destruct (e =? 10)%N; simpl; tauto.
Qed.

(** The pieces [splitlines] cuts are made of characters of the text that
    are not line breaks. *)
Lemma splitlines_from_chars (n : nat) :
  forall (s pending x : text) c,
    length s <= n ->
    In x (splitlines_from pending s) -> In c x ->
    In c pending \/ (In c s /\ is_linebreak c = false).
Proof.
  induction n as [|n IH]; intros [|d s] pending x c L;
    try (simpl in L; lia).
  - simpl. destruct pending; [intros []|].
    intros [<-|[]] I. left. now apply in_rev.
  - simpl. destruct pending; [intros []|].
    intros [<-|[]] I. left. now apply in_rev.
  - rewrite splitlines_from_cons. simpl in L.
    destruct (d =? 13)%N eqn:CR; [|destruct (is_linebreak d) eqn:LB].
    + intros [<-|X] I; [left; now apply in_rev|].
      apply (IH _ _ _ c) in X; [|pose proof (after_cr_length s); lia|exact I].
      destruct X as [[]|[X Y]]. right. split; [|exact Y].
      right. now apply after_cr_incl.
    + intros [<-|X] I; [left; now apply in_rev|].
      apply (IH _ _ _ c) in X; [|lia|exact I].
      destruct X as [[]|[X Y]]. right. split; [now right | exact Y].
    + intros X I. apply (IH _ _ _ c) in X; [|lia|exact I].
      destruct X as [[<-|X]|[X Y]].
      * right. split; [now left | exact LB].
      * now left.
      * right. split; [now right | exact Y].
Qed.

Lemma splitlines_chars (s x : text) c :
  In x (splitlines s) -> In c x -> In c s /\ is_linebreak c = false.
Proof.
  intros X I.
  destruct (@splitlines_from_chars (length s) s [] x c (le_n _) X I)
    as [[]|Y]; exact Y.
Qed.

(** Every line [_lines] returns is a piece of the text that is not empty,
    has no whitespace at either end and no line break inside. *)
Theorem lines_are_trimmed (s l : text) :
  In l (_lines s) ->
  l <> [] /\ strip l = l
  /\ forall c, In c l -> In c s /\ is_linebreak c = false.
Proof.
  unfold _lines. intros I. apply in_map_iff in I as (x & <- & I).
  apply filter_In in I as [I T].
  split; [|split].
  - intros E. rewrite E in T. discriminate.
  - apply strip_idem.
  - intros c J. apply strip_incl in J. now apply (@splitlines_chars s x).
Qed.

(** A blank text area holds no line. *)
Lemma lines_of_blank (s : text) : blank s = true -> _lines s = [].
Proof.
  intros B. unfold _lines.
  rewrite (@filter_none _ (fun l => truthy (strip l))); [reflexivity|].
  intros x I.
  assert (Bx : blank x = true).
  { apply forallb_forall. intros c J.
    apply (@splitlines_chars s x c I) in J as [J _].
    exact (proj1 (forallb_forall _ _) B c J). }
  apply strip_nil in Bx. now rewrite Bx.
Qed.

Lemma splitlines_from_line (l pending rest : text) :
  (forall c, In c l -> is_linebreak c = false) ->
  splitlines_from pending (l ++ rest) = splitlines_from (rev l ++ pending) rest.
Proof.
  revert pending; induction l as [|d l IH]; intros pending F; [reflexivity|].
  cbn [app]. rewrite splitlines_from_cons.
  assert (LB : is_linebreak d = false) by (apply F; now left).
  destruct (d =? 13)%N eqn:CR.
  { apply N.eqb_eq in CR. subst. discriminate LB. }
  rewrite LB, IH by (intros c I; apply F; now right).
  simpl. now rewrite <- app_assoc.
Qed.

Lemma splitlines_join (ls : list text) :
  (forall l, In l ls -> l <> [] /\ forall c, In c l -> is_linebreak c = false) ->
  splitlines (join [10%N] ls) = ls.
Proof.
  unfold splitlines. induction ls as [|l ls IH]; intros F; [reflexivity|].
  destruct (F l (or_introl eq_refl)) as [NE LB].
  destruct ls as [|l2 ls].
  - cbn [join]. rewrite <- (app_nil_r l) at 1.
    rewrite splitlines_from_line by exact LB. rewrite app_nil_r. simpl.
    destruct (rev l) eqn:R.
    + apply (f_equal (@rev N)) in R. rewrite rev_involutive in R. now subst.
    + now rewrite <- R, rev_involutive.
  - change (join [10%N] (l :: l2 :: ls))
      with (l ++ 10%N :: join [10%N] (l2 :: ls)).
    rewrite splitlines_from_line by exact LB.
    rewrite splitlines_from_cons. cbn [N.eqb Pos.eqb is_linebreak].
    rewrite app_nil_r, rev_involutive. simpl.
    f_equal. apply IH. intros x I. apply F. now right.
Qed.

(** Lines that are not empty, have no whitespace at either end and no line
    break inside come back as they are from the text that lists them one
    per line. *)
Theorem lines_of_joined (ls : list text) :
  (forall l, In l ls ->
     l <> [] /\ strip l = l /\ forall c, In c l -> is_linebreak c = false) ->
  _lines (join [10%N] ls) = ls.
Proof.
  intros F. unfold _lines.
  rewrite splitlines_join by (intros l I; destruct (F l I) as (A & _ & B); auto).
  assert (K : filter (fun l => truthy (strip l)) ls = ls).
  { clear -F. induction ls as [|l ls IH]; [reflexivity|]. simpl.
    destruct (F l (or_introl eq_refl)) as (A & B & _). rewrite B.
    destruct l; [congruence|]. simpl. f_equal. apply IH.
    intros x I. apply F. now right. }
  rewrite K. clear K. induction ls as [|l ls IH]; [reflexivity|]. simpl.
  destruct (F l (or_introl eq_refl)) as (_ & B & _). rewrite B. f_equal.
  apply IH. intros x I. apply F. now right.
Qed.

(** ** More on the handler *)

Lemma compile_list_app `{ReModule} (l1 l2 : list text) :
  compile_list (l1 ++ l2)
  = match compile_list l1 with
    | inl e => inl e
    | inr p1 =>
      match compile_list l2 with
      | inl e => inl e
      | inr p2 => inr (p1 ++ p2)
      end
    end.
Proof.
  induction l1 as [|l l1 IH]; simpl.
  - now destruct (compile_list l2).
  - destruct (re_compile l); [reflexivity|]. rewrite IH.
    destruct (compile_list l1); [reflexivity|].
    now destruct (compile_list l2).
Qed.

(** A list of lines compiles exactly when each of its lines does. *)
Lemma compile_list_compiles `{ReModule} (ls : list text) :
  (exists ps, compile_list ls = inr ps)
  <-> forall line, In line ls -> exists p, re_compile line = inr p.
Proof.
  split.
  - intros [ps E] line I. destruct (re_compile line) as [e|p] eqn:F;
      [|now exists p].
    destruct (compile_list_fails _ _ I F) as [e' F']. congruence.
  - induction ls as [|l ls IH]; intros A; simpl; [now exists []|].
    destruct (A l (or_introl eq_refl)) as [p ->].
    destruct IH as [ps ->]; [intros line I; apply A; now right|].
    now exists (p :: ps).
Qed.

(** What compiling a list of lines raises is what its first line that does
    not compile raises. *)
Lemma compile_list_raises `{ReModule} (ls : list text) (e : raised) :
  compile_list ls = inl e
  <-> exists before line after,
        ls = before ++ line :: after
        /\ (forall l, In l before -> exists p, re_compile l = inr p)
        /\ re_compile line = inl e.
Proof.
  split.
  - induction ls as [|l ls IH]; simpl; [discriminate|].
    destruct (re_compile l) as [e1|p] eqn:E.
    + intros [= ->]. exists [], l, ls. split; [reflexivity|].
      split; [intros ? []|exact E].
    + destruct (compile_list ls) as [e1|ps]; [|discriminate].
      intros [= ->]. destruct (IH eq_refl) as (before & line & after & -> & A & F).
      exists (l :: before), line, after. split; [reflexivity|].
      split; [|exact F]. intros x [<-|I]; [now exists p | now apply A].
  - intros (before & line & after & -> & A & F).
    apply compile_list_compiles in A as [ps A].
    rewrite compile_list_app, A. simpl. now rewrite F.
Qed.

(** What the handler shows is decided by compiling the lines of the four
    text areas in turn. *)
Lemma apply_extra_shown `{ReModule} (st : store) (er eh ep eb : text) :
  snd (apply_extra st er eh ep eb)
  = match compile_list (_lines er ++ _lines eh ++ _lines ep ++ _lines eb) with
    | inr _ => Applied
    | inl ReError => RegexError
    | inl OtherError => Uncaught
    end.
Proof. rewrite !compile_list_app. run_handler; reflexivity. Qed.

Lemma extend_nothing `{ReModule} (c : category) (st : store) :
  extend c [] st = st.
Proof. destruct st, c; unfold extend; simpl; now rewrite app_nil_r. Qed.

(** A click with four blank text areas leaves the four lists as they are
    and shows the success message. *)
Theorem apply_extra_blank `{ReModule} (st : store) (er eh ep eb : text) :
  blank er = true -> blank eh = true -> blank ep = true -> blank eb = true ->
  apply_extra st er eh ep eb = (st, Applied).
Proof.
  intros B1 B2 B3 B4.
  unfold apply_extra, try_body, bind, eval, do_extend.
  rewrite !lines_of_blank by assumption. cbn [compile_list].
  now rewrite !extend_nothing.
Qed.

(** What a click shows depends on the lines of the four text areas, taken
    in the order respect, humble, polite, beautifier and from top to bottom:
    the success message exactly when every line compiles, the error message
    exactly when the first line that does not compile raises [re.error],
    and neither of them (the exception leaves the handler) exactly when
    that line raises something else. *)
Theorem apply_extra_outcome `{ReModule} (st : store) (er eh ep eb : text) :
  (snd (apply_extra st er eh ep eb) = Applied
   <-> forall line,
         In line (_lines er ++ _lines eh ++ _lines ep ++ _lines eb) ->
         exists p, re_compile line = inr p)
  /\ (snd (apply_extra st er eh ep eb) = RegexError
      <-> exists before line after,
            _lines er ++ _lines eh ++ _lines ep ++ _lines eb
            = before ++ line :: after
            /\ (forall l, In l before -> exists p, re_compile l = inr p)
            /\ re_compile line = inl ReError)
  /\ (snd (apply_extra st er eh ep eb) = Uncaught
      <-> exists before line after,
            _lines er ++ _lines eh ++ _lines ep ++ _lines eb
            = before ++ line :: after
            /\ (forall l, In l before -> exists p, re_compile l = inr p)
            /\ re_compile line = inl OtherError).
Proof.
  rewrite apply_extra_shown, <- compile_list_compiles, <- !compile_list_raises.
  destruct (compile_list _) as [[|]|ps]; repeat split;
    try discriminate; try reflexivity;
    try (intros [? ?]; discriminate); intros _; now exists ps.
Qed.

(** When the handler shows the error, the lists of the categories before
    the first one with a bad line have grown by their compiled lines, and
    the lists from that category on are what they were. *)
Theorem apply_extra_failed `{ReModule} (st : store) (er eh ep eb : text) :
  snd (apply_extra st er eh ep eb) = RegexError ->
  exists c,
    compile_list (_lines (area c er eh ep eb)) = inl ReError
    /\ (forall d, rank d < rank c ->
          exists new, compile_list (_lines (area d er eh ep eb)) = inr new
                      /\ rules d (fst (apply_extra st er eh ep eb))
                         = rules d st ++ new)
    /\ (forall d, rank c <= rank d ->
          rules d (fst (apply_extra st er eh ep eb)) = rules d st).
Proof.
  run_handler; simpl; try discriminate; intros _;
    match goal with
    | E : compile_list (_lines ?a) = inl ReError |- _ =>
      first [ exists Respect; split; [exact E|]
            | exists Humble; split; [exact E|]
            | exists Polite; split; [exact E|]
            | exists Beautifier; split; [exact E|] ]
    end;
    split; intros d R; destruct d; simpl in R;
    try lia; simpl; try reflexivity; eexists; split; try eassumption;
    reflexivity.
Qed.

(** ** The choice of the text column *)

Lemma position_some (name : text) (cols : list text) i :
  position name cols = Some i ->
  nth_error cols i = Some name
  /\ forall k c, k < i -> nth_error cols k = Some c -> c <> name.
Proof.
  revert i; induction cols as [|c cols IH]; intros i; simpl; [discriminate|].
  destruct (text_eqb c name) eqn:E.
  - intros [= <-]. apply text_eqb_eq in E. subst. split; [reflexivity|].
    intros k c' L; lia.
  - destruct (position name cols) as [j|]; [|discriminate].
    intros [= <-]. destruct (IH j eq_refl) as [A B]. split; [exact A|].
    intros [|k] c' L; simpl.
    + intros [= ->] ->. rewrite (proj2 (text_eqb_eq name name) eq_refl) in E.
      discriminate.
    + apply B. lia.
Qed.

Lemma position_in (name : text) (cols : list text) :
  In name cols -> exists i, position name cols = Some i.
Proof.
  induction cols as [|c cols IH]; simpl; [tauto|].
  destruct (text_eqb c name) eqn:E; [now exists 0|].
  intros [->|I].
  - rewrite (proj2 (text_eqb_eq name name) eq_refl) in E. discriminate.
  - destruct (IH I) as [i ->]. now exists (S i).
Qed.

Lemma mem_text (x : text) (l : list text) :
  existsb (text_eqb x) l = true <-> In x l.
Proof.
  rewrite existsb_exists. split.
  - intros (y & I & E). apply text_eqb_eq in E. now subst.
  - intros I. exists x; split; [exact I | now apply text_eqb_eq].
Qed.

(** The select box of the text column starts on a column of the sheet:
    on the candidate name that comes first in the list of candidates among
    those the sheet has (wherever it stands in the sheet), and on the first
    column when the sheet has none of them. *)
Theorem default_column (cols : list text) :
  cols <> [] ->
  exists d,
    nth_error cols (default_index cols) = Some d
    /\ ((exists before after,
           CANDIDATE_TEXT_COLS = before ++ d :: after
           /\ forall c, In c before -> ~ In c cols)
        \/ (default_index cols = 0
            /\ forall c, In c CANDIDATE_TEXT_COLS -> ~ In c cols)).
Proof.
  intros NE. unfold default_index, default_text_col.
  generalize CANDIDATE_TEXT_COLS as cands. intros cands.
  destruct (find (fun cand => existsb (text_eqb cand) cols) cands) as [d|] eqn:F.
  - assert (S : exists before after,
               cands = before ++ d :: after
               /\ forall c, In c before -> ~ In c cols).
    { clear NE. revert F. induction cands as [|x cands IH]; simpl; [discriminate|].
      destruct (existsb (text_eqb x) cols) eqn:M.
      - intros [= ->]. exists [], cands. split; [reflexivity | intros c []].
      - intros F. destruct (IH F) as (before & after & -> & N).
        exists (x :: before), after. split; [reflexivity|].
        intros c [<-|I]; [|now apply N].
        intros I. apply mem_text in I. congruence. }
    apply find_some in F as [_ M]. apply mem_text in M.
    destruct (position_in d cols M) as [i P]. rewrite P.
    exists d. split; [now apply position_some in P | now left].
  - destruct cols as [|c0 cols]; [congruence|].
    exists c0. split; [reflexivity|]. right. split; [reflexivity|].
    intros c I J. apply mem_text in J.
    now rewrite (find_none _ _ F c I) in J.
Qed.

(** ** The values offered for the filter *)

Lemma text_leb_total (a b : text) : text_leb a b = true \/ text_leb b a = true.
Proof.
  revert b; induction a as [|x a IH]; intros [|y b]; simpl; auto.
  destruct (x <? y)%N eqn:L1, (y <? x)%N eqn:L2; auto.
Qed.

Lemma text_leb_antisym (a b : text) :
  text_leb a b = true -> text_leb b a = true -> a = b.
Proof.
  revert b; induction a as [|x a IH]; intros [|y b]; simpl; try discriminate;
    [reflexivity|].
  destruct (x <? y)%N eqn:L1, (y <? x)%N eqn:L2; try discriminate.
  - apply N.ltb_lt in L1, L2. lia.
  - intros A B. apply N.ltb_ge in L1, L2.
    assert (x = y) by lia. subst. f_equal. now apply IH.
Qed.

Lemma insert_sorted_in (x y : text) (l : list text) :
  In y (insert_sorted x l) <-> y = x \/ In y l.
Proof.
  induction l as [|z l IH]; simpl; [intuition congruence|].
  destruct (text_leb x z); simpl; rewrite ?IH; intuition congruence.
Qed.

Lemma sorted_in (y : text) (l : list text) : In y (sorted l) <-> In y l.
Proof.
  induction l as [|x l IH]; simpl; [tauto|].
  rewrite insert_sorted_in, IH. intuition congruence.
Qed.

Lemma insert_sorted_sorted (x : text) (l : list text) :
  Sorted text_le l -> Sorted text_le (insert_sorted x l).
Proof.
  induction l as [|z l IH]; simpl; intros S; [repeat constructor|].
  destruct (text_leb x z) eqn:L.
  - constructor; [exact S | constructor; exact L].
  - inversion S as [|? ? S' H']; subst. constructor; [now apply IH|].
    destruct l as [|w l]; simpl.
    + constructor. destruct (text_leb_total x z) as [A|A]; [congruence|exact A].
    + destruct (text_leb x w); constructor.
      * destruct (text_leb_total x z) as [A|A]; [congruence|exact A].
      * now inversion H'.
Qed.

Lemma sorted_sorted (l : list text) : Sorted text_le (sorted l).
Proof.
  induction l as [|x l IH]; simpl; [constructor | now apply insert_sorted_sorted].
Qed.

Lemma insert_sorted_nodup (x : text) (l : list text) :
  ~ In x l -> NoDup l -> NoDup (insert_sorted x l).
Proof.
  induction l as [|z l IH]; simpl; intros N D; [repeat constructor; tauto|].
  destruct (text_leb x z).
  - constructor; [simpl; tauto | exact D].
  - inversion D as [|? ? Nz D']; subst. constructor.
    + rewrite insert_sorted_in. intuition congruence.
    + apply IH; tauto.
Qed.

Lemma sorted_nodup (l : list text) : NoDup l -> NoDup (sorted l).
Proof.
  induction 1 as [|x l N D IH]; simpl; [constructor|].
  apply insert_sorted_nodup; [now rewrite sorted_in | exact IH].
Qed.

Lemma unique_in (y : text) (l : list text) : In y (unique l) <-> In y l.
Proof.
  induction l as [|x l IH]; simpl; [tauto|].
  rewrite filter_In, IH. split.
  - intuition.
  - intros [->|I]; [now left|].
    destruct (text_eqb x y) eqn:E.
    + apply text_eqb_eq in E. now left.
    + right. split; [exact I | reflexivity].
Qed.

Lemma unique_nodup (l : list text) : NoDup (unique l).
Proof.
  induction l as [|x l IH]; simpl; [constructor|].
  constructor.
  - rewrite filter_In. intros [_ E].
    rewrite (proj2 (text_eqb_eq x x) eq_refl) in E. discriminate.
  - now apply NoDup_filter.
Qed.

(** The values offered after "（未選択）" are the texts of the cells of the
    column that are not missing, each once, in increasing order. *)
Theorem filter_options_spec (df : frame) (filter_col : text)
  (cells : list pyval) :
  column df filter_col = Some cells ->
  exists vs,
    filter_options df filter_col = Some (UNSELECTED :: vs)
    /\ (forall v, In v vs
                  <-> exists cell, In cell cells /\ is_na cell = false
                                   /\ py_str cell = v)
    /\ NoDup vs /\ Sorted text_le vs.
Proof.
  intros C. unfold filter_options. rewrite C. eexists. split; [reflexivity|].
  split; [|split].
  - intros v. rewrite sorted_in, unique_in, in_map_iff. split.
    + intros (cell & E & I). apply filter_In in I as [I N].
      exists cell. repeat split; auto. now apply negb_true_iff.
    + intros (cell & I & N & E). exists cell. split; [exact E|].
      apply filter_In. split; [exact I | now apply negb_true_iff].
  - apply sorted_nodup, unique_nodup.
  - apply sorted_sorted.
Qed.

(** A value picked among those offered, when it turns the filter on, keeps
    at least one row: the filtered frame is never empty. *)
Theorem offered_value_keeps_rows (df : frame) (filter_col v : text)
  (vs : list text) :
  filter_options df filter_col = Some (UNSELECTED :: vs) ->
  In v vs ->
  exists work_df,
    restrict df filter_col v = inr work_df /\ rows work_df <> []
    /\ columns work_df = columns df.
Proof.
  unfold filter_options, restrict.
  destruct (column df filter_col) as [cells|] eqn:C; [|discriminate].
  intros [= <-] I. cbn [or_raise and_then]. eexists. split; [reflexivity|].
  split; [|reflexivity].
  apply sorted_in, unique_in, in_map_iff in I as (cell & E & I).
  apply filter_In in I as [I _].
  unfold column in C. destruct (position filter_col (columns df)) as [j|];
    [|discriminate]. injection C as <-.
  apply in_map_iff in I as (r & E' & I). subst cell.
  unfold select. cbn [rows]. rewrite map_map.
  rewrite (@keep_filter _ (fun r => text_eqb (py_str (nth j r PNaN)) v)).
  intros Z.
  assert (X : In r (filter (fun r => text_eqb (py_str (nth j r PNaN)) v) (rows df))).
  { apply filter_In. split; [exact I | now apply text_eqb_eq]. }
  rewrite Z in X. destruct X.
Qed.

(** ** Missing columns *)

(** A text column the sheet does not have stops the pass with the error
    message, whether a filter is set or not, and a filter column it does
    not have ends the pass in [KeyError]. *)
Theorem missing_columns `{ReModule} (st : store) (df : frame)
  (text_col filter_col : text) (filter_val : option text) :
  (position text_col (columns df) = None ->
   filter_on filter_col filter_val = false
   \/ position filter_col (columns df) <> None ->
   classify_table st df text_col filter_col filter_val = inl Stopped)
  /\ (filter_on filter_col filter_val = true ->
      position filter_col (columns df) = None ->
      classify_table st df text_col filter_col filter_val = inl KeyError).
Proof.
  unfold classify_table, restrict, column. split.
  - intros T [F|F].
    + rewrite F. cbn [and_then]. now rewrite T.
    + destruct (filter_on filter_col filter_val).
      * destruct (position filter_col (columns df)); [|congruence].
        cbn [or_raise and_then select columns]. now rewrite T.
      * cbn [and_then]. now rewrite T.
  - intros F P. now rewrite F, P.
Qed.

(** ** What the rules can match *)

Section RepLoopStarts.

Variable body : matcher.
Variables (lo : nat) (hi : option nat).
Variable nb : bool.
Variable sb : N -> bool.

Hypothesis body_starts :
  forall i s mk k x,
    body i s mk k = Some x ->
    (nb = true /\ exists mk', k i s mk' = Some x)
    \/ (exists c s', s = c :: s' /\ sb c = true).

Hypothesis body_progress :
  forall i s mk k x,
    body i s mk k = Some x ->
    exists i' s' mk', later i s i' s' /\ k i' s' mk' = Some x
                      /\ (nb = false -> i < i').

Lemma rep_loop_starts k fuel count last i s mk x :
  Sre.rep_loop body lo hi k fuel count last i s mk = Some x ->
  ((lo <= count \/ nb = true) /\ exists mk', k i s mk' = Some x)
  \/ (exists c s', s = c :: s' /\ sb c = true).
Proof.
  revert count last mk; induction fuel as [|fuel IH]; intros count last mk;
    simpl; [discriminate|].
  assert (B : forall l,
             body i s mk
               (fun i' s' mk' => Sre.rep_loop body lo hi k fuel (S count) l i' s' mk')
             = Some x ->
             (nb = true /\ exists mk', k i s mk' = Some x)
             \/ (exists c s', s = c :: s' /\ sb c = true)).
  { intros l E. apply body_starts in E as [[N (mk1 & E)]|E]; [|now right].
    apply IH in E as [[_ E]|E]; [left; now split | now right]. }
  destruct (count <? lo) eqn:C.
  - intros E. apply B in E as [[N E]|E]; [left; split; auto | now right].
  - apply Nat.ltb_ge in C.
    destruct (Sre.below count hi && negb (Sre.same_pos last i)).
    + destruct (body i s mk _) eqn:E.
      * intros [= ->]. apply B in E as [[N E]|E]; [left; split; auto | now right].
      * intros E'. left. split; [now left | now exists mk].
    + intros E'. left. split; [now left | now exists mk].
Qed.

Lemma rep_loop_progress k fuel count last i s mk x :
  Sre.rep_loop body lo hi k fuel count last i s mk = Some x ->
  exists i' s' mk', later i s i' s' /\ k i' s' mk' = Some x
                    /\ (count < lo -> nb = false -> i < i').
Proof.
  revert count last i s mk; induction fuel as [|fuel IH];
    intros count last i s mk; simpl; [discriminate|].
  assert (B : forall l,
             body i s mk
               (fun i' s' mk' => Sre.rep_loop body lo hi k fuel (S count) l i' s' mk')
             = Some x ->
             exists i' s' mk', later i s i' s' /\ k i' s' mk' = Some x
                               /\ (nb = false -> i < i')).
  { intros l E. apply body_progress in E as (i1 & s1 & mk1 & L1 & E & P1).
    apply IH in E as (i2 & s2 & mk2 & L2 & E & _).
    exists i2, s2, mk2. split; [eapply later_trans; eassumption|].
    split; [exact E|]. intros N. apply later_length in L2. specialize (P1 N). lia. }
  destruct (count <? lo) eqn:C.
  - intros E. apply B in E as (i2 & s2 & mk2 & L & E & P).
    exists i2, s2, mk2. auto.
  - apply Nat.ltb_ge in C.
    destruct (Sre.below count hi && negb (Sre.same_pos last i)).
    + destruct (body i s mk _) eqn:E.
      * intros [= ->]. apply B in E as (i2 & s2 & mk2 & L & E & P).
        exists i2, s2, mk2. repeat split; auto.
      * intros E'. exists i, s, mk. repeat split; auto using later_refl;
          intros; lia.
    + intros E'. exists i, s, mk. repeat split; auto using later_refl;
        intros; lia.
Qed.

End RepLoopStarts.

Lemma one_char_progress ok i s mk k x :
  Sre.one_char ok i s mk k = Some x ->
  exists i' s' mk', later i s i' s' /\ k i' s' mk' = Some x /\ i < i'.
Proof.
  destruct s as [|c s]; simpl; [discriminate|].
  destruct (ok c); [|discriminate].
  intros E. exists (S i), s, mk. repeat split; auto using later_step.
Qed.

(** A successful match either went on from where it began, the pattern
    being one that can match nothing, or the text begins with a character
    the pattern can start with. *)
Lemma exec_starts r i s mk k x :
  Sre.exec r i s mk k = Some x ->
  (nullable r = true /\ exists mk', k i s mk' = Some x)
  \/ (exists c s', s = c :: s' /\ starts r c = true).
Proof.
  revert i s mk k x.
  induction r as [|d| |neg items| | |r1 IH1 r2 IH2|r1 IH1 r2 IH2|n r1 IH1
                 |lo hi r1 IH1];
    intros i s mk k x; simpl.
  - intros E. left. split; [reflexivity | now exists mk].
  - destruct s as [|c s]; simpl; [discriminate|].
    destruct (d =? c)%N eqn:D; [|discriminate]. intros _. right. now exists c, s.
  - destruct s as [|c s]; simpl; [discriminate|].
    destruct (negb (c =? 10)%N) eqn:D; [|discriminate]. intros _. right.
    now exists c, s.
  - destruct s as [|c s]; simpl; [discriminate|].
    destruct (Sre.in_set neg items c) eqn:D; [|discriminate]. intros _. right.
    now exists c, s.
  - destruct (i =? 0); [|discriminate].
    intros E. left. split; [reflexivity | now exists mk].
  - destruct (Sre.at_end s); [|discriminate].
    intros E. left. split; [reflexivity | now exists mk].
  - intros E. apply IH1 in E as [[N1 (mk1 & E)]|(c & s' & -> & S1)].
    + apply IH2 in E as [[N2 E]|(c & s' & -> & S2)].
      * left. now rewrite N1, N2.
      * right. exists c, s'. split; [reflexivity|]. rewrite N1, S2.
        apply orb_true_r.
    + right. exists c, s'. now rewrite S1.
  - destruct (Sre.exec r1 i s mk k) eqn:E.
    + intros [= ->]. apply IH1 in E as [[N E]|(c & s' & -> & S1)].
      * left. now rewrite N.
      * right. exists c, s'. now rewrite S1.
    + intros E2. apply IH2 in E2 as [[N E2]|(c & s' & -> & S2)].
      * left. rewrite N. split; [apply orb_true_r | exact E2].
      * right. exists c, s'. rewrite S2. split; [reflexivity | apply orb_true_r].
  - intros E. apply IH1 in E as [[N (mk1 & E)]|E]; [|now right].
    left. split; [exact N | eauto].
  - intros E.
    apply (@rep_loop_starts (Sre.exec r1) lo hi (nullable r1) (starts r1) IH1)
      in E as [[N E]|E]; [|now right].
    left. split; [|exact E].
    destruct N as [N| ->]; [|apply orb_true_r].
    assert (lo = 0) by lia. now subst.
Qed.

(** A pattern that cannot match nothing consumes a character. *)
Lemma exec_progress r i s mk k x :
  Sre.exec r i s mk k = Some x ->
  exists i' s' mk', later i s i' s' /\ k i' s' mk' = Some x
                    /\ (nullable r = false -> i < i').
Proof.
  revert i s mk k x.
  induction r as [|d| |neg items| | |r1 IH1 r2 IH2|r1 IH1 r2 IH2|n r1 IH1
                 |lo hi r1 IH1];
    intros i s mk k x; simpl.
  - intros E. exists i, s, mk. repeat split; auto using later_refl; discriminate.
  - intros E. apply one_char_progress in E as (i1 & s1 & mk1 & L & E & P).
    exists i1, s1, mk1. auto.
  - intros E. apply one_char_progress in E as (i1 & s1 & mk1 & L & E & P).
    exists i1, s1, mk1. auto.
  - intros E. apply one_char_progress in E as (i1 & s1 & mk1 & L & E & P).
    exists i1, s1, mk1. auto.
  - destruct (i =? 0); [|discriminate].
    intros E. exists i, s, mk. repeat split; auto using later_refl; discriminate.
  - destruct (Sre.at_end s); [|discriminate].
    intros E. exists i, s, mk. repeat split; auto using later_refl; discriminate.
  - intros E. apply IH1 in E as (i1 & s1 & mk1 & L1 & E & P1).
    apply IH2 in E as (i2 & s2 & mk2 & L2 & E & P2).
    exists i2, s2, mk2. split; [eapply later_trans; eassumption|].
    split; [exact E|]. intros N. apply andb_false_iff in N.
    apply later_length in L1, L2. destruct N as [N|N]; [specialize (P1 N)|specialize (P2 N)]; lia.
  - destruct (Sre.exec r1 i s mk k) eqn:E.
    + intros [= ->]. apply IH1 in E as (i1 & s1 & mk1 & L & E & P).
      exists i1, s1, mk1. repeat split; auto. intros N.
      apply orb_false_iff in N. tauto.
    + intros E2. apply IH2 in E2 as (i1 & s1 & mk1 & L & E2 & P).
      exists i1, s1, mk1. repeat split; auto. intros N.
      apply orb_false_iff in N. tauto.
  - intros E. apply IH1 in E as (i1 & s1 & mk1 & L & E & P).
    exists i1, s1, (Sre.set_mark mk1 (n - 1) (i, i1)). auto.
  - intros E.
    apply (@rep_loop_progress (Sre.exec r1) lo hi (nullable r1) IH1)
      in E as (i1 & s1 & mk1 & L & E & P).
    exists i1, s1, mk1. repeat split; auto. intros N.
    apply orb_false_iff in N as [N1 N2]. apply Nat.eqb_neq in N1.
    apply P; [lia | exact N2].
Qed.

Lemma search_starts r ng must i s m :
  Sre.search r ng must i s = Some m ->
  nullable r = true \/ exists c, In c s /\ starts r c = true.
Proof.
  revert must i; induction s as [|c s IH]; intros must i; simpl;
    destruct (Sre.exec r i _ _ _) as [[j mk]|] eqn:E.
  - apply exec_starts in E as [[N _]|(c & s' & X & _)]; [now left | discriminate].
  - discriminate.
  - intros _. apply exec_starts in E as [[N _]|(d & s' & [= <- <-] & S)];
      [now left | right]. exists c. split; [now left | exact S].
  - intros S. apply IH in S as [N|(d & I & S)]; [now left | right].
    exists d. split; [now right | exact S].
Qed.

(** A rule that cannot match nothing has no occurrence in a text without
    any of the characters it can start with. *)
Lemma no_start_no_match (r : Sre.regex) (s : text) :
  nullable r = false ->
  (forall c, In c s -> starts r c = false) ->
  Sre.finditer r s = [].
Proof.
  intros N F. unfold Sre.finditer.
  replace (2 * length s + 2) with (S (2 * length s + 1)) by lia.
  cbn [Sre.scan].
  destruct (Sre.search r (Sre.ngroups r) false 0 s) as [m|] eqn:S;
    [|reflexivity].
  apply search_starts in S as [S|(c & I & S)]; [congruence|].
  rewrite (F c I) in S. discriminate.
Qed.

Lemma search_progress r ng must i s m :
  Sre.search r ng must i s = Some m ->
  nullable r = false -> m_start m < m_end m.
Proof.
  revert must i; induction s as [|c s IH]; intros must i; simpl;
    destruct (Sre.exec r i _ _ _) as [[j mk]|] eqn:E; try discriminate;
    try (intros S N; eapply IH; eassumption);
    intros [= <-] N; simpl;
    apply exec_progress in E as (i1 & s1 & mk1 & L & E & P);
    destruct (must && (i1 =? i)); try discriminate;
    injection E as <- <-; now apply P.
Qed.

(** The matches of a scan lie in the text, from left to right, without
    overlap. *)
Lemma scan_matches fuel r ng must i s :
  Forall (fun m => i <= m_start m /\ m_start m <= m_end m
                   /\ m_end m <= i + length s
                   /\ (nullable r = false -> m_start m < m_end m))
    (Sre.scan fuel r ng must i s)
  /\ StronglySorted (fun m1 m2 => m_end m1 <= m_start m2)
       (Sre.scan fuel r ng must i s).
Proof.
  revert must i s; induction fuel as [|fuel IH]; intros must i s; simpl.
  { split; constructor. }
  destruct (Sre.search r ng must i s) as [m|] eqn:S; [|split; constructor].
  pose proof (@search_progress _ _ _ _ _ _ S) as P.
  apply search_bounds in S as (S1 & S2 & S3 & S4).
  destruct (IH (m_end m =? m_start m) (m_end m) (skipn (m_end m - i) s))
    as [A B].
  rewrite length_skipn in A.
  split.
  - constructor; [repeat split; auto|].
    eapply Forall_impl; [|exact A]. simpl. intros m' (X1 & X2 & X3 & X4).
    repeat split; auto; lia.
  - constructor; [exact B|].
    eapply Forall_impl; [|exact A]. simpl. intros m' (X1 & _). exact X1.
Qed.

(** A rule that cannot match nothing has at most as many occurrences as
    the text has characters. *)
Lemma scan_count fuel r ng must i s :
  nullable r = false -> length (Sre.scan fuel r ng must i s) <= length s.
Proof.
  intros N. revert must i s; induction fuel as [|fuel IH]; intros must i s;
    simpl; [lia|].
  destruct (Sre.search r ng must i s) as [m|] eqn:S; [|simpl; lia].
  pose proof (@search_progress _ _ _ _ _ _ S N) as P.
  apply search_bounds in S as (S1 & S2 & S3 & S4).
  simpl. specialize (IH (m_end m =? m_start m) (m_end m) (skipn (m_end m - i) s)).
  rewrite length_skipn in IH. lia.
Qed.

(** ** The built-in rules *)

(** No built-in rule has a capture group or can match nothing, and each
    starts with one of sixteen characters. *)
Lemma builtin_rules (c : category) (p : Sre.regex) :
  In p (rules c builtin) ->
  Sre.ngroups p = 0 /\ nullable p = false
  /\ forall d, starts p d = true -> In d BUILTIN_STARTS.
Proof.
  assert (K : forall d x, (x =? d)%N = true ->
                          existsb (N.eqb x) BUILTIN_STARTS = true ->
                          In d BUILTIN_STARTS).
  { intros d x E M. apply N.eqb_eq in E. subst.
    apply existsb_exists in M as (y & I & E). apply N.eqb_eq in E. now subst. }
  destruct c; cbn [rules];
    intros I; repeat (destruct I as [<-|I]; [|]); try destruct I;
    (split; [reflexivity|]); (split; [reflexivity|]);
    intros d S; cbn [starts nullable orb andb] in S;
    repeat (apply orb_prop in S as [S|S]);
    try discriminate S;
    (eapply K; [exact S | reflexivity]).
Qed.

Lemma finditer_matches (r : Sre.regex) (s : text) (m : match_obj) :
  In m (Sre.finditer r s) ->
  m_start m <= m_end m /\ m_end m <= length s
  /\ (nullable r = false -> m_start m < m_end m).
Proof.
  intros I. unfold Sre.finditer in I.
  destruct (scan_matches (2 * length s + 2) r (Sre.ngroups r) false 0 s)
    as [A _].
  rewrite Forall_forall in A. destruct (A m I) as (_ & X & Y & Z). auto.
Qed.

Lemma getslice_length (s : text) a b :
  a <= b -> b <= length s -> length (getslice s a b) = b - a.
Proof.
  intros A B. unfold getslice. rewrite length_firstn, length_skipn. lia.
Qed.

(** With the built-in tables every hit is a piece of the text, and not an
    empty one. *)
Theorem builtin_hits_are_pieces (c : category) (t h : text) :
  In h (_hits (rules c builtin) t) ->
  exists a b, a < b /\ b <= length t /\ h = getslice t a b
              /\ length h = b - a.
Proof.
  rewrite hits_flat_map. intros I.
  apply in_flat_map in I as (p & Ip & I).
  destruct (builtin_rules c p Ip) as (G & N & _).
  unfold rule_hits, findall in I. rewrite map_map in I.
  apply in_map_iff in I as (m & <- & I).
  apply finditer_matches in I as (A & B & C).
  unfold found_of. change (groups p) with (Sre.ngroups p). rewrite G.
  cbn [hit_text group_text].
  exists (m_start m), (m_end m). repeat split; auto.
  apply getslice_length; lia.
Qed.

Lemma list_sum_bound {A} (f : A -> nat) (l : list A) (n : nat) :
  (forall x, In x l -> f x <= n) -> list_sum (map f l) <= length l * n.
Proof.
  induction l as [|x l IH]; intros F; simpl; [lia|].
  specialize (IH (fun y I => F y (or_intror I))).
  specialize (F x (or_introl eq_refl)). lia.
Qed.

Lemma hits_bound (ps : list Sre.regex) (s : text) :
  (forall p, In p ps -> nullable p = false) ->
  length (_hits ps s) <= length ps * length s.
Proof.
  intros F. rewrite hits_count. apply list_sum_bound.
  intros p I. apply scan_count. now apply F.
Qed.

(** With the built-in tables a category counts at most as many hits as it
    has rules times the text has characters. *)
Theorem builtin_count_bound (c : category) (t : text) :
  cnt c (classify_keigo builtin (PStr t))
  <= length (rules c builtin) * length t.
Proof.
  destruct (strip t) eqn:S.
  - unfold classify_keigo. rewrite S. destruct c; simpl; lia.
  - rewrite cnt_classify by congruence. apply hits_bound.
    intros p I. now destruct (builtin_rules c p I) as (_ & N & _).
Qed.

Lemma builtin_no_hits (c : category) (t : text) :
  (forall d, In d t -> ~ In d BUILTIN_STARTS) ->
  _hits (rules c builtin) t = [].
Proof.
  intros F. apply hits_nil_iff. intros p I.
  destruct (builtin_rules c p I) as (_ & N & S).
  apply no_start_no_match; [exact N|].
  intros d J. destruct (starts p d) eqn:E; [|reflexivity].
  exfalso. exact (F d J (S d E)).
Qed.

Lemma builtin_no_start (t : text) :
  (forall d, In d t -> ~ In d BUILTIN_STARTS) ->
  classify_keigo builtin (PStr t) = no_data.
Proof.
  intros F.
  pose proof (builtin_no_hits Respect t F) as H1.
  pose proof (builtin_no_hits Humble t F) as H2.
  pose proof (builtin_no_hits Polite t F) as H3.
  pose proof (builtin_no_hits Beautifier t F) as H4.
  cbn [rules] in H1, H2, H3, H4.
  unfold classify_keigo. destruct (strip t); [reflexivity|].
  now rewrite H1, H2, H3, H4.
Qed.

(** With the built-in tables a text is keigo only if it has one of the
    sixteen characters the rules begin with: without them the verdict is
    the no-data verdict. *)
Theorem no_start_no_keigo (t : text) :
  (forall d, In d t -> ~ In d BUILTIN_STARTS) ->
  classify_keigo builtin (PStr t) = no_data.
Proof. exact (builtin_no_start t). Qed.

(** In particular a text of ASCII characters is never keigo for the
    built-in tables. *)
Corollary ascii_no_keigo (t : text) :
  forallb (fun d => (d <? 128)%N) t = true ->
  classify_keigo builtin (PStr t) = no_data.
Proof.
  intros A. apply builtin_no_start. intros d I J.
  apply (proj1 (forallb_forall _ _) A) in I. apply N.ltb_lt in I.
  assert (G : forallb (fun x => (128 <=? x)%N) BUILTIN_STARTS = true)
    by (vm_compute; reflexivity).
  apply (proj1 (forallb_forall _ _) G) in J. apply N.leb_le in J. lia.
Qed.

(** ** The table pass, row by row *)

(** Without a filter, on a table that has rows, the pass returns both
    views: [out_all] has the columns of the table followed by the nine
    classification columns and, row for row in the order of the table, the
    cells of the table followed by the verdict on the row's text cell;
    [out_keigo] is made of the rows of [out_all] whose [is_keigo] cell is
    [True], in the same order. *)
Theorem unfiltered_pass `{ReModule} (st : store)
  (cols : list text) (rs : list (list pyval)) (text_col : text) (j : nat) :
  rs <> [] ->
  position text_col cols = Some j ->
  position IS_KEIGO cols = None ->
  Forall (fun r => length r = length cols) rs ->
  exists out_all out_keigo,
    classify_table st (range_frame cols rs) text_col NOT_USED None
    = inr (out_all, out_keigo)
    /\ columns out_all = cols ++ RESULT_KEYS
    /\ columns out_keigo = cols ++ RESULT_KEYS
    /\ length (rows out_all) = length rs
    /\ (forall i r, nth_error rs i = Some r ->
          nth_error (rows out_all) i
          = Some (r ++ verdict_cells (classify_keigo st (nth j r PNaN))))
    /\ rows out_keigo
       = filter (fun row => match nth (length cols) row PNaN with
                            | PBool b => b
                            | _ => false
                            end) (rows out_all).
Proof.
  intros NE P K W.
  do 2 eexists. split.
  { apply (@classify_table_unfiltered _ st cols rs text_col j None);
      assumption. }
  cbn [columns rows]. repeat split.
  - apply length_map.
  - intros i r E. rewrite nth_error_map, E. reflexivity.
  - clear NE. induction rs as [|r rs IH]; [reflexivity|].
    inversion W as [|? ? Lr W']; subst. cbn [filter map].
    rewrite <- IH by exact W'. clear IH.
    replace (nth (length cols)
               (r ++ verdict_cells (classify_keigo st (nth j r PNaN))) PNaN)
      with (PBool (is_keigo (classify_keigo st (nth j r PNaN)))).
    + now destruct (is_keigo (classify_keigo st (nth j r PNaN))).
    + rewrite <- Lr, <- (Nat.add_0_r (length r)). now rewrite nth_past.
Qed.

Lemma unfiltered_pass_witness :
  let cols := [u8 "話者"; u8 "セリフ"] in
  let rs := [ [PStr (u8 "客"); PStr (u8 "これはペンです。")];
              [PStr (u8 "友"); PStr (u8 "今日は天気がいいね")] ] in
  exists out_all out_keigo,
    classify_table builtin (range_frame cols rs) (u8 "セリフ") NOT_USED None
    = inr (out_all, out_keigo)
    /\ length (rows out_all) = 2
    /\ length (rows out_keigo) = 1.
Proof.
  intros cols rs.
  destruct (@unfiltered_pass sre builtin cols rs (u8 "セリフ") 1)
    as (out_all & out_keigo & E & _ & _ & L & R & F);
    [discriminate | reflexivity | reflexivity | repeat constructor |].
  exists out_all, out_keigo. split; [exact E|]. split; [exact L|].
  rewrite F.
  destruct (rows out_all) as [|r1 [|r2 [|r3 rest]]]; try discriminate L.
  pose proof (R 0 _ eq_refl) as R1. pose proof (R 1 _ eq_refl) as R2.
  injection R1 as ->. injection R2 as ->. vm_compute. reflexivity.
Defined.

(** ** Instances of the properties above *)

Lemma rule_order_irrelevant_witness :
  let st' := Store (RESPECT_RE builtin) (HUMBLE_RE builtin)
               (rev (POLITE_RE builtin)) (BEAUTIFIER_RE builtin) in
  let v := PStr (u8 "お待ちください。お願いします。") in
  (forall c, Permutation (rules c builtin) (rules c st'))
  /\ (forall c, cnt c (classify_keigo builtin v) = cnt c (classify_keigo st' v))
  /\ is_keigo (classify_keigo builtin v) = is_keigo (classify_keigo st' v).
Proof.
  intros st' v.
  assert (P : forall c, Permutation (rules c builtin) (rules c st')).
  { intros c; destruct c; cbn [rules st' POLITE_RE RESPECT_RE HUMBLE_RE
                                BEAUTIFIER_RE];
      try apply Permutation_refl. apply Permutation_rev. }
  split; [exact P|].
  exact (@rule_order_irrelevant sre builtin st' v P).
Defined.

Lemma lines_are_trimmed_witness :
  let s := u8 " です 　" ++ [10%N; 10%N] ++ u8 "(ます)" in
  In (u8 "です") (_lines s)
  /\ u8 "です" <> []
  /\ strip (u8 "です") = u8 "です"
  /\ forall c, In c (u8 "です") -> In c s /\ is_linebreak c = false.
Proof.
  intros s.
  assert (I : In (u8 "です") (_lines s)) by (left; reflexivity).
  split; [exact I|]. exact (@lines_are_trimmed s (u8 "です") I).
Defined.

Lemma lines_of_joined_witness :
  let ls := [u8 "であります"; u8 "ござる(?:か|よ)?"] in
  (forall l, In l ls ->
     l <> [] /\ strip l = l /\ forall c, In c l -> is_linebreak c = false)
  /\ _lines (join [10%N] ls) = ls.
Proof.
  intros ls.
  assert (F : forall l, In l ls ->
                l <> [] /\ strip l = l
                /\ forall c, In c l -> is_linebreak c = false).
  { intros l [<-|[<-|[]]]; (split; [discriminate|]); (split; [reflexivity|]);
      intros c I; repeat (destruct I as [<-|I]; [reflexivity|]); destruct I. }
  split; [exact F|]. exact (@lines_of_joined ls F).
Defined.

Lemma apply_extra_blank_witness :
  blank [] = true /\ blank (u8 "  ") = true
  /\ blank [10%N] = true /\ blank (u8 " 　") = true
  /\ apply_extra builtin [] (u8 "  ") [10%N] (u8 " 　") = (builtin, Applied).
Proof.
  repeat (split; [reflexivity|]).
  apply (@apply_extra_blank sre builtin [] (u8 "  ") [10%N] (u8 " 　"));
    reflexivity.
Defined.

Lemma apply_extra_failed_witness :
  snd (apply_extra builtin (u8 "であります") (u8 "(") [] (u8 "お茶")) = RegexError
  /\ exists c,
       compile_list (_lines (area c (u8 "であります") (u8 "(") [] (u8 "お茶")))
       = inl ReError
       /\ (forall d, rank d < rank c ->
             exists new,
               compile_list (_lines (area d (u8 "であります") (u8 "(") [] (u8 "お茶")))
               = inr new
               /\ rules d (fst (apply_extra builtin (u8 "であります") (u8 "(") []
                                  (u8 "お茶")))
                  = rules d builtin ++ new)
       /\ (forall d, rank c <= rank d ->
             rules d (fst (apply_extra builtin (u8 "であります") (u8 "(") []
                             (u8 "お茶")))
             = rules d builtin).
Proof.
  assert (E : snd (apply_extra builtin (u8 "であります") (u8 "(") [] (u8 "お茶"))
              = RegexError) by reflexivity.
  split; [exact E|].
  exact (@apply_extra_failed sre builtin (u8 "であります") (u8 "(") []
           (u8 "お茶") E).
Defined.

Lemma apply_extra_applied_witness :
  let st' := fst (apply_extra builtin [] [] (u8 "であります") []) in
  apply_extra builtin [] [] (u8 "であります") [] = (st', Applied)
  /\ exists new,
       compile_list (_lines (area Polite [] [] (u8 "であります") [])) = inr new
       /\ rules Polite st' = rules Polite builtin ++ new.
Proof.
  intros st'.
  assert (E : apply_extra builtin [] [] (u8 "であります") [] = (st', Applied))
    by reflexivity.
  split; [exact E|].
  exact (@apply_extra_applied sre builtin st' [] [] (u8 "であります") []
           Polite E).
Defined.

Lemma classify_traced_calls_witness :
  strip (u8 "これはペンです。") <> []
  /\ length (snd (classify_keigo_traced builtin (PStr (u8 "これはペンです。"))))
     = 24.
Proof.
  assert (S : strip (u8 "これはペンです。") <> []) by discriminate.
  split; [exact S|].
  rewrite (@classify_traced_calls sre builtin (u8 "これはペンです。") S).
  reflexivity.
Defined.

Lemma default_column_witness :
  let cols := [u8 "話者"; u8 "text"; u8 "セリフ"] in
  cols <> []
  /\ default_index cols = 2
  /\ exists d,
       nth_error cols (default_index cols) = Some d
       /\ ((exists before after,
              CANDIDATE_TEXT_COLS = before ++ d :: after
              /\ forall c, In c before -> ~ In c cols)
           \/ (default_index cols = 0
               /\ forall c, In c CANDIDATE_TEXT_COLS -> ~ In c cols)).
Proof.
  intros cols.
  assert (NE : cols <> []) by discriminate.
  split; [exact NE|]. split; [reflexivity|].
  exact (@default_column cols NE).
Defined.

Lemma filter_options_spec_witness :
  let df := range_frame [u8 "話者"; u8 "セリフ"]
              [ [PStr (u8 "B"); PStr (u8 "行く")];
                [PNaN; PStr (u8 "来る")];
                [PStr (u8 "A"); PStr (u8 "食べます")];
                [PStr (u8 "B"); PStr (u8 "帰ります")] ] in
  let cells := [PStr (u8 "B"); PNaN; PStr (u8 "A"); PStr (u8 "B")] in
  column df (u8 "話者") = Some cells
  /\ filter_options df (u8 "話者") = Some [UNSELECTED; u8 "A"; u8 "B"]
  /\ exists vs,
       filter_options df (u8 "話者") = Some (UNSELECTED :: vs)
       /\ (forall v, In v vs
                     <-> exists cell, In cell cells /\ is_na cell = false
                                      /\ py_str cell = v)
       /\ NoDup vs /\ Sorted text_le vs.
Proof.
  intros df cells.
  assert (C : column df (u8 "話者") = Some cells) by reflexivity.
  split; [exact C|]. split; [reflexivity|].
  exact (@filter_options_spec df (u8 "話者") cells C).
Defined.

Lemma offered_value_keeps_rows_witness :
  let df := range_frame [u8 "話者"; u8 "セリフ"]
              [ [PStr (u8 "B"); PStr (u8 "行く")];
                [PNaN; PStr (u8 "来る")];
                [PStr (u8 "A"); PStr (u8 "食べます")] ] in
  filter_options df (u8 "話者") = Some [UNSELECTED; u8 "A"; u8 "B"]
  /\ In (u8 "A") [u8 "A"; u8 "B"]
  /\ exists work_df,
       restrict df (u8 "話者") (u8 "A") = inr work_df /\ rows work_df <> []
       /\ columns work_df = columns df.
Proof.
  intros df.
  assert (O : filter_options df (u8 "話者") = Some [UNSELECTED; u8 "A"; u8 "B"])
    by reflexivity.
  assert (I : In (u8 "A") [u8 "A"; u8 "B"]) by (left; reflexivity).
  split; [exact O|]. split; [exact I|].
  exact (@offered_value_keeps_rows df (u8 "話者") (u8 "A") [u8 "A"; u8 "B"] O I).
Defined.

Lemma missing_columns_witness :
  let df := range_frame [u8 "話者"; u8 "セリフ"]
              [ [PStr (u8 "B"); PStr (u8 "行きます")] ] in
  classify_table builtin df (u8 "台詞") NOT_USED None = inl Stopped
  /\ classify_table builtin df (u8 "セリフ") (u8 "役") (Some (u8 "B"))
     = inl KeyError.
Proof.
  intros df. split.
  - apply (proj1 (@missing_columns sre builtin df (u8 "台詞") NOT_USED None));
      [reflexivity | left; reflexivity].
  - apply (proj2 (@missing_columns sre builtin df (u8 "セリフ") (u8 "役")
                    (Some (u8 "B")))); reflexivity.
Defined.

Lemma builtin_hits_are_pieces_witness :
  In (u8 "です。") (_hits (rules Polite builtin) (u8 "これはペンです。"))
  /\ exists a b,
       a < b /\ b <= length (u8 "これはペンです。")
       /\ u8 "です。" = getslice (u8 "これはペンです。") a b
       /\ length (u8 "です。") = b - a.
Proof.
  assert (I : In (u8 "です。")
                (_hits (rules Polite builtin) (u8 "これはペンです。")))
    by (vm_compute; left; reflexivity).
  split; [exact I|].
  exact (@builtin_hits_are_pieces Polite (u8 "これはペンです。") (u8 "です。") I).
Defined.

Lemma no_start_no_keigo_witness :
  (forall d, In d (u8 "今日は天気がよかった。Thanks!") -> ~ In d BUILTIN_STARTS)
  /\ classify_keigo builtin (PStr (u8 "今日は天気がよかった。Thanks!")) = no_data.
Proof.
  assert (F : forall d, In d (u8 "今日は天気がよかった。Thanks!") ->
                        ~ In d BUILTIN_STARTS).
  { intros d I J.
    assert (G : forallb (fun x => negb (existsb (N.eqb x) BUILTIN_STARTS))
                  (u8 "今日は天気がよかった。Thanks!") = true)
      by (vm_compute; reflexivity).
    apply (proj1 (forallb_forall _ _) G) in I.
    apply negb_true_iff in I.
    assert (X : existsb (N.eqb d) BUILTIN_STARTS = true).
    { apply existsb_exists. exists d. split; [exact J | apply N.eqb_refl]. }
    congruence. }
  split; [exact F|].
  exact (@no_start_no_keigo (u8 "今日は天気がよかった。Thanks!") F).
Defined.
